(** * Numascope live web interface: a shallow embedding of webserver.go

    The file models the live variant of the web server (the one built around
    [Connection], [live], [broadcastData], [state], [toggle] and [monitor]):
    the sampling loop with its coalescing buffer, the connection registry,
    the event control plane and the per-connection message loop.

    Conventions of the embedding.
    - Go's [int64] and [int] (64-bit platform) are [Z]; arithmetic that can
      leave the range is wrapped with [wrap64].
    - Go strings are [string] (a sequence of bytes), [map[string]T] is
      [gmap string T], slices are lists.
    - [*Connection] pointers are addresses into [heap]; the registry
      [connections] is a list of addresses, so a write through one alias
      ([c.stopped = true] in [monitor]) is seen through the registry.
    - Everything the code takes from outside is an oracle carried by the
      world: the clock ([time.Now]), the outcome of each socket write
      ([wfail]) and the readings each sensor driver returns ([readings]).
    - Console output is recorded in [log], socket writes in [wire], both
      oldest first.
    - [sync.Mutex] and the sensors' [Lock]/[Unlock] have no effect on a
      sequential run and are not represented; every handler is modelled as
      running to completion on its own. [monitor]'s handshake is also
      given statement by statement ([handshake_step]), to be interleaved
      with the broadcasts of the sampling goroutine. *)

From Stdlib Require Import ZArith Lia Ascii.
From stdpp Require Import gmap strings list fin_maps functions.

(** ** Data *)

(** An event of a sensor: [desc] and [enabled], the two fields the web
    server touches. *)
Record Event := mkEvent { desc : string; enabled : bool }.

(** The web server's view of a sensor adapter. [events] is the slice
    [Events()] returns (shared with the adapter, so assignments through it
    stay), [readings k] is what the driver returns on its [k]-th [Sample()]
    call, [sampled] counts the [Sample()] calls made so far and [applied]
    records the argument of each [Enable()] call, most recent first. *)
Record Sensor := mkSensor {
  name : string;
  events : list Event;
  sources : N;
  readings : nat -> list Z;
  sampled : nat;
  applied : list bool
}.

Record Connection := mkConnection { socket : nat; stopped : bool }.

Inductive Message :=
| SignonMessage (Timestamp : Z) (Tree : gmap string (list string))
                (Sources : gmap string N)
| ChangeMessage (Op : string) (Timestamp : Z) (Interval : Z) (Discrete : bool)
                (Enabled : gmap string (list string))
| LabelMessage (Op : string) (Timestamp : Z) (Label : string)
| DataMessage (epochs : list (list Z)).

(** One [socket.WriteJSON] call: the socket written to, the message, and
    whether the call returned an error. *)
Record Write := mkWrite { to : nat; payload : Message; failed : bool }.

(** Lines printed on the console. *)
Inductive LogLine :=
| LogArrow (m : Message)
| LogFailedWriting
| LogFailedReading
| LogUpgrade
| LogRead
| LogAuthFailed
| LogAuthSucceeded
| LogRecv (msg : gmap string string)
| LogUndefinedValue (v : string)
| LogUnknownMessage (msg : gmap string string)
| LogFifo.

Record World := mkWorld {
  interval : Z;
  discrete : bool;
  debug : bool;
  coalescing : Z;
  present : list Sensor;
  heap : nat -> Connection;
  connections : list nat;
  wfail : nat -> nat -> bool;
  clock : nat -> Z;
  clock_reads : nat;
  wire : list Write;
  log : list LogLine
}.

Definition set_interval (v : Z) (w : World) : World :=
  mkWorld v (discrete w) (debug w) (coalescing w) (present w) (heap w)
          (connections w) (wfail w) (clock w) (clock_reads w) (wire w) (log w).

Definition set_discrete (v : bool) (w : World) : World :=
  mkWorld (interval w) v (debug w) (coalescing w) (present w) (heap w)
          (connections w) (wfail w) (clock w) (clock_reads w) (wire w) (log w).

Definition set_present (v : list Sensor) (w : World) : World :=
  mkWorld (interval w) (discrete w) (debug w) (coalescing w) v (heap w)
          (connections w) (wfail w) (clock w) (clock_reads w) (wire w) (log w).

Definition set_heap (v : nat -> Connection) (w : World) : World :=
  mkWorld (interval w) (discrete w) (debug w) (coalescing w) (present w) v
          (connections w) (wfail w) (clock w) (clock_reads w) (wire w) (log w).

Definition set_connections (v : list nat) (w : World) : World :=
  mkWorld (interval w) (discrete w) (debug w) (coalescing w) (present w)
          (heap w) v (wfail w) (clock w) (clock_reads w) (wire w) (log w).

Definition set_clock_reads (v : nat) (w : World) : World :=
  mkWorld (interval w) (discrete w) (debug w) (coalescing w) (present w)
          (heap w) (connections w) (wfail w) (clock w) v (wire w) (log w).

Definition set_wire (v : list Write) (w : World) : World :=
  mkWorld (interval w) (discrete w) (debug w) (coalescing w) (present w)
          (heap w) (connections w) (wfail w) (clock w) (clock_reads w) v (log w).

Definition set_log (v : list LogLine) (w : World) : World :=
  mkWorld (interval w) (discrete w) (debug w) (coalescing w) (present w)
          (heap w) (connections w) (wfail w) (clock w) (clock_reads w)
          (wire w) v.

(** ** A monad for handlers: world passing with panics *)

Inductive Outcome (A : Type) :=
| Ret (a : A) (w : World)
| Panic (reason : string) (w : World).
Arguments Ret {A} a w.
Arguments Panic {A} reason w.

Definition M (A : Type) : Type := World -> Outcome A.

Definition ret {A} (a : A) : M A := fun w => Ret a w.

Definition bind {A B} (m : M A) (k : A -> M B) : M B :=
  fun w => match m w with
           | Ret a w' => k a w'
           | Panic r w' => Panic r w'
           end.

Definition panic {A} (reason : string) : M A := fun w => Panic reason w.

Definition get : M World := fun w => Ret w w.

Definition modify (f : World -> World) : M unit := fun w => Ret tt (f w).

Declare Scope go_scope.
Delimit Scope go_scope with go.
Notation "'do' x <- m ; k" := (bind m (fun x => k))
  (at level 10, x name, m at level 100, k at level 200) : go_scope.
Notation "'run' m ; k" := (bind m (fun _ => k))
  (at level 10, m at level 100, k at level 200) : go_scope.
Open Scope go_scope.

Definition println (l : LogLine) : M unit :=
  modify (fun w => set_log (log w ++ [l]) w).

(** [if *debug { fmt.Println(...) }] *)
Definition debugln (l : LogLine) : M unit :=
  fun w => if debug w then println l w else Ret tt w.

(** [for _, x := range xs { body(x) }] over a slice evaluated once. *)
Fixpoint range {A} (xs : list A) (body : A -> M unit) : M unit :=
  match xs with
  | [] => ret tt
  | x :: rest => run body x; range rest body
  end.

(** ** Integers and the clock *)

Definition wrap64 (z : Z) : Z := ((z + 2 ^ 63) mod 2 ^ 64 - 2 ^ 63)%Z.

(** [time.Now().UnixNano() / 1e3]: the next clock reading, in
    microseconds; Go's integer division truncates toward zero. *)
Definition now_micros : M Z :=
  fun w => Ret (Z.quot (wrap64 (clock w (clock_reads w))) 1000)
               (set_clock_reads (S (clock_reads w)) w).

(** ** Sensor adapter operations *)

Definition set_events (evs : list Event) (s : Sensor) : Sensor :=
  mkSensor (name s) evs (sources s) (readings s) (sampled s) (applied s).

(** [sensor.Enable(discrete)] *)
Definition Enable (d : bool) (s : Sensor) : Sensor :=
  mkSensor (name s) (events s) (sources s) (readings s) (sampled s)
           (d :: applied s).

(** [sensor.Sample()]: the readings and the sensor afterwards. *)
Definition Sample (s : Sensor) : list Z * Sensor :=
  (readings s (sampled s),
   mkSensor (name s) (events s) (sources s) (readings s) (S (sampled s))
            (applied s)).

(** ** Connection.WriteJSON, change and the broadcasts *)

Definition WriteJSON (c : Connection) (msg : Message) : M bool :=
  run debugln (LogArrow msg);
  fun w =>
    let err := wfail w (socket c) (length (wire w)) in
    Ret err (set_wire (wire w ++ [mkWrite (socket c) msg err]) w).

(** The [Enabled] map [change] builds: per sensor name, the descriptions of
    its enabled events, in order. *)
Definition enabled_descs (s : Sensor) : list string :=
  desc <$> filter (fun e => enabled e = true) (events s).

Definition enabled_tree (ps : list Sensor) : gmap string (list string) :=
  foldl (fun m s => <[name s := enabled_descs s]> m) ∅ ps.

Definition change (c : Connection) : M unit :=
  do ts <- now_micros;
  do w <- get;
  let msg := ChangeMessage "enabled" ts (interval w) (discrete w)
                           (enabled_tree (present w)) in
  do err <- WriteJSON c msg;
  if err then debugln LogFailedWriting else ret tt.

Definition broadcastLabel (timestamp : Z) (label : string) : M unit :=
  let msg := LabelMessage "label" timestamp label in
  do w <- get;
  range (connections w) (fun p =>
    do w' <- get;
    do err <- WriteJSON (heap w' p) msg;
    if err then debugln LogFailedWriting else ret tt).

Definition broadcastData (epochs : list (list Z)) : M unit :=
  do w <- get;
  range (connections w) (fun p =>
    do w' <- get;
    if stopped (heap w' p) then ret tt
    else
      do err <- WriteJSON (heap w' p) (DataMessage epochs);
      if err then debugln LogFailedWriting else ret tt).

(** ** remove *)

Definition last_conn (w : World) : option nat :=
  connections w !! (length (connections w) - 1).

(** The body of [remove]'s loop, over the indices [range connections]
    yields. An index outside the slice is Go's run-time panic. *)
Fixpoint remove_loop (c : nat) (idx : list nat) : M unit :=
  match idx with
  | [] => panic "element not found"
  | i :: rest => fun w =>
      match connections w !! i, last_conn w with
      | Some p, Some l =>
          if Nat.eqb (socket (heap w p)) c then
            Ret tt (set_connections
                      (take (length (connections w) - 1)
                            (<[i := l]> (connections w))) w)
          else remove_loop c rest w
      | _, _ => Panic "index out of range" w
      end
  end.

Definition remove (c : nat) : M unit :=
  fun w => remove_loop c (seq 0 (length (connections w))) w.

(** ** The event control plane: state and toggle *)

Definition set_enabled (b : bool) (e : Event) : Event := mkEvent (desc e) b.

(** The inner loop of [state] over one sensor's events: the index of the
    first event whose description is [d]. *)
Fixpoint find_event (d : string) (evs : list Event) (i : nat) : option nat :=
  match evs with
  | [] => None
  | e :: rest => if String.eqb (desc e) d then Some i
                 else find_event d rest (S i)
  end.

(** One pass of [state]'s outer loop body on a sensor: [Some s'] when the
    body returns from [state] (leaving the sensor as [s']), [None] when it
    falls through to the next sensor. *)
Definition state_sensor (d : string) (st dm : bool) (s : Sensor)
  : option Sensor :=
  if String.eqb d "all" then
    Some (snd (Sample (Enable dm (set_events (set_enabled true <$> events s) s))))
  else
    match find_event d (events s) 0 with
    | Some i =>
        Some (snd (Sample (Enable dm
               (set_events (alter (set_enabled st) i (events s)) s))))
    | None => None
    end.

Fixpoint state_loop (d : string) (st dm : bool) (ps : list Sensor)
  : option (list Sensor) :=
  match ps with
  | [] => None
  | s :: rest =>
      match state_sensor d st dm s with
      | Some s' => Some (s' :: rest)
      | None => cons s <$> state_loop d st dm rest
      end
  end.

Definition state (d : string) (st : bool) : M unit :=
  fun w =>
    match state_loop d st (discrete w) (present w) with
    | Some ps => Ret tt (set_present ps w)
    | None => Panic ("event '" +:+ d +:+ "' not found") w
    end.

(** The loop sending [change] to each registered connection in turn, as
    it appears in [toggle] and under the averaging case of [monitor]. *)
Definition change_all : M unit :=
  do w <- get;
  range (connections w) (fun p => do w' <- get; change (heap w' p)).

Definition toggle (d val : string) : M unit :=
  run (if String.eqb val "on" then state d true
       else if String.eqb val "off" then state d false
       else panic "unexpected state");
  change_all.

(** Modelled from the spec: [Activate] is defined outside webserver.go; it
    "re-activates all sensors under the new mode ... does not touch
    individual event enablement". *)
Definition Activate : M unit :=
  modify (fun w => set_present (Enable (discrete w) <$> present w) w).

(** ** strconv.Atoi on a 64-bit platform *)

Inductive NumError := ErrSyntax | ErrRange.

Definition bytes_of (s : string) : list Z :=
  (fun a => Z.of_N (Ascii.N_of_ascii a)) <$> String.list_ascii_of_string s.

Definition maxUint64 : Z := (2 ^ 64 - 1)%Z.

(** The digit loop of [ParseUint(s, 10, 64)], in uint64 arithmetic. *)
Fixpoint ParseUint_loop (bs : list Z) (n : Z) : Z * option NumError :=
  match bs with
  | [] => (n, None)
  | c :: rest =>
      if ((48 <=? c) && (c <=? 57))%Z then
        let d := (c - 48)%Z in
        if (maxUint64 / 10 + 1 <=? n)%Z then (maxUint64, Some ErrRange)
        else
          let n10 := (n * 10)%Z in
          let n1 := ((n10 + d) mod 2 ^ 64)%Z in
          if ((n1 <? n10) || (maxUint64 <? n1))%Z then (maxUint64, Some ErrRange)
          else ParseUint_loop rest n1
      else (0%Z, Some ErrSyntax)
  end.

Definition ParseUint (bs : list Z) : Z * option NumError :=
  match bs with
  | [] => (0%Z, Some ErrSyntax)
  | _ => ParseUint_loop bs 0
  end.

(** [ParseInt(s, 10, 0)] *)
Definition ParseInt (bs : list Z) : Z * option NumError :=
  match bs with
  | [] => (0%Z, Some ErrSyntax)
  | c :: rest =>
      let neg := (c =? 45)%Z in
      let body := if ((c =? 43) || (c =? 45))%Z then rest else bs in
      match ParseUint body with
      | (_, Some ErrSyntax) => (0%Z, Some ErrSyntax)
      | (un, _) =>
          let cutoff := (2 ^ 63)%Z in
          if negb neg && (cutoff <=? un)%Z then ((cutoff - 1)%Z, Some ErrRange)
          else if neg && (cutoff <? un)%Z then ((- cutoff)%Z, Some ErrRange)
          else (if neg then wrap64 (- wrap64 un) else wrap64 un, None)
      end
  end.

(** The fast path of [Atoi] for strings of 1 to 18 bytes. *)
Fixpoint Atoi_fast_loop (bs : list Z) (n : Z) : option Z :=
  match bs with
  | [] => Some n
  | ch :: rest =>
      let ch' := ((ch - 48) mod 256)%Z in
      if (9 <? ch')%Z then None else Atoi_fast_loop rest (n * 10 + ch')%Z
  end.

Definition Atoi (s : string) : Z * option NumError :=
  let bs := bytes_of s in
  let sLen := length bs in
  if (0 <? sLen) && (sLen <? 19) then
    match bs with
    | [] => (0%Z, Some ErrSyntax)
    | s0 :: rest =>
        let signed := ((s0 =? 45) || (s0 =? 43))%Z in
        let body := if signed then rest else bs in
        if signed && (length body <? 1) then (0%Z, Some ErrSyntax)
        else
          match Atoi_fast_loop body 0 with
          | None => (0%Z, Some ErrSyntax)
          | Some n => (if (s0 =? 45)%Z then (- n)%Z else n, None)
          end
    end
  else ParseInt bs.

(** ** monitor: the handshake and the message loop *)

Definition token : string := "463ba1974b06".

Definition signon_tree (ps : list Sensor) : gmap string (list string) :=
  foldl (fun m s => <[name s := desc <$> events s]> m) ∅ ps.

Definition signon_sources (ps : list Sensor) : gmap string N :=
  foldl (fun m s => <[name s := sources s]> m) ∅ ps.

(** [monitor] from its entry to the read loop. [upgrade_err] tells whether
    [upgrader.Upgrade] failed, [sock] is the socket it returned, [addr] the
    address of the local [c] (which escapes into the registry), and [first]
    the first message read ([None] for a read error). The result is [true]
    when the read loop is entered. *)
Definition monitor_handshake (upgrade_err : bool) (sock addr : nat)
    (first : option string) : M bool :=
  if upgrade_err then
    run debugln LogUpgrade; ret false
  else
    run modify (fun w =>
          set_heap (<[addr := mkConnection sock false]> (heap w)) w);
    match first with
    | None => run debugln LogRead; ret false
    | Some message =>
        if negb (String.eqb message token) then
          run debugln LogAuthFailed; ret false
        else
          run debugln LogAuthSucceeded;
          do ts <- now_micros;
          do w <- get;
          let msg := SignonMessage ts (signon_tree (present w))
                                   (signon_sources (present w)) in
          do err <- WriteJSON (heap w addr) msg;
          if err then
            run debugln LogFailedWriting; ret false
          else
            do w' <- get;
            run change (heap w' addr);
            run modify (fun w => set_connections (connections w ++ [addr]) w);
            ret true
    end.

(** [msg[k]] on a Go map: the empty string when the key is absent. *)
Definition field (k : string) (msg : gmap string string) : string :=
  default "" (msg !! k).

Definition set_stopped (addr : nat) (b : bool) (w : World) : World :=
  set_heap (<[addr := mkConnection (socket (heap w addr)) b]> (heap w)) w.

(** One iteration of [monitor]'s read loop for the connection at [addr].
    [input] is what [ReadJSON] decoded ([None] for an error). The result is
    [true] when the loop goes on, [false] after [break]. *)
Definition monitor_step (addr : nat) (input : option (gmap string string))
  : M bool :=
  match input with
  | None =>
      run debugln LogFailedReading;
      do w <- get;
      run remove (socket (heap w addr));
      ret false
  | Some msg =>
      run debugln (LogRecv msg);
      let op := field "Op" msg in
      if String.eqb op "update" then
        run toggle (field "Event" msg) (field "State" msg); ret true
      else if String.eqb op "stop" then
        run modify (set_stopped addr true); ret true
      else if String.eqb op "start" then
        run modify (set_stopped addr false); ret true
      else if String.eqb op "averaging" then
        run modify (set_discrete (String.eqb (field "Value" msg) "false"));
        run Activate;
        run change_all;
        ret true
      else if String.eqb op "interval" then
        let r := Atoi (field "Value" msg) in
        run modify (set_interval (fst r));
        run (match snd r with
             | Some _ => println (LogUndefinedValue (field "Value" msg))
             | None => ret tt
             end);
        ret true
      else
        run println (LogUnknownMessage msg); ret true
  end.

(** ** live: the sampling loop *)

(** The locals [lastTimestamp] and [epochs] of [live]. *)
Record LiveState := mkLive { lastTimestamp : Z; epochs : list (list Z) }.

(** Modelled from the spec: [validateNonblock] is defined outside
    webserver.go; a broken label read "is validated but must not crash the
    loop (log-and-continue)". *)
Definition validateNonblock (err : bool) : M unit :=
  if err then println LogFifo else ret tt.

(** [for _, sensor := range present { samples = append(samples,
    sensor.Sample()...) }]: the readings appended and the sensors after. *)
Fixpoint sample_sensors (ps : list Sensor) : list Z * list Sensor :=
  match ps with
  | [] => ([], [])
  | s :: rest =>
      let r := Sample s in
      let rs := sample_sensors rest in
      (fst r ++ fst rs, snd r :: snd rs)
  end.

Definition sample_present : M (list Z) :=
  fun w => let r := sample_sensors (present w) in
           Ret (fst r) (set_present (snd r) w).

(** The coalescing branch at the end of the loop body: the locals after
    it, and the batch handed to [broadcastData] if any. *)
Definition coalesce (window : Z) (st : LiveState) (timestamp : Z)
    (samples : list Z) : LiveState * option (list (list Z)) :=
  if (wrap64 (timestamp - lastTimestamp st) <? window)%Z
     || (length (epochs st) =? 0)
  then (mkLive (lastTimestamp st) (epochs st ++ [samples]), None)
  else (mkLive timestamp [], Some (epochs st)).

(** What one iteration reads from the label fifo: whether [unix.Read]
    returned an error, its count [n], and the label text
    [string(bytes.TrimSpace(labelBuf[:n]))]. *)
Record FifoRead := mkFifo { fifo_err : bool; fifo_n : Z; fifo_label : string }.

(** One iteration of [live]'s loop, after the sleep. *)
Definition live_tick (rd : FifoRead) (st : LiveState) : M LiveState :=
  run validateNonblock (fifo_err rd);
  do timestamp <- now_micros;
  run (if (0 <? fifo_n rd)%Z then broadcastLabel timestamp (fifo_label rd)
       else ret tt);
  do w <- get;
  if length (connections w) =? 0 then ret st
  else
    do rs <- sample_present;
    let samples := timestamp :: rs in
    let r := coalesce (coalescing w) st timestamp samples in
    match snd r with
    | Some batch => run broadcastData batch; ret (fst r)
    | None => ret (fst r)
    end.

(** Successive iterations of the loop. *)
Fixpoint live_ticks (rds : list FifoRead) (st : LiveState) : M LiveState :=
  match rds with
  | [] => ret st
  | rd :: rest => do st' <- live_tick rd st; live_ticks rest st'
  end.

(** [live]'s locals at loop entry. *)
Definition live_init : LiveState := mkLive 0 [].

(** The coalescing branch run over a sequence of epochs, each given by its
    timestamp and the readings that follow it: the locals at the end and
    the batches flushed, in order. *)
Fixpoint coalesce_run (window : Z) (st : LiveState) (eps : list (Z * list Z))
  : LiveState * list (list (list Z)) :=
  match eps with
  | [] => (st, [])
  | (timestamp, rs) :: rest =>
      let r := coalesce window st timestamp (timestamp :: rs) in
      let r' := coalesce_run window (fst r) rest in
      (fst r', match snd r with
               | Some batch => batch :: snd r'
               | None => snd r'
               end)
  end.

(** The epochs themselves, as [live] builds them. *)
Definition epochs_of (eps : list (Z * list Z)) : list (list Z) :=
  (fun e => fst e :: snd e) <$> eps.

(** ** Observing an outcome *)

Definition world_of {A} (o : Outcome A) : World :=
  match o with Ret _ w => w | Panic _ w => w end.

Definition value_of {A} (o : Outcome A) : option A :=
  match o with Ret a _ => Some a | Panic _ _ => None end.

Definition panic_of {A} (o : Outcome A) : option string :=
  match o with Ret _ _ => None | Panic r _ => Some r end.

(** ** Concrete worlds used in the examples below *)

Definition idle_sensor (n : string) (evs : list Event) : Sensor :=
  mkSensor n evs 1 (fun _ => [0%Z]) 0 [].

(** A world with the given registry and sensors: interval 100 ms,
    averaging mode, debug as given, a 10 microsecond coalescing window,
    connection [a] living at address [a] with socket [a], writes failing
    exactly on the sockets in [bad], a clock advancing by one millisecond
    per reading, nothing written or printed yet. *)
Definition sample_world (dbg : bool) (conns bad : list nat)
    (ps : list Sensor) : World :=
  mkWorld 100 false dbg 10 ps (fun a => mkConnection a false) conns
          (fun s _ => bool_decide (s ∈ bad))
          (fun k => (Z.of_nat k * 1000000)%Z) 0 [] [].

Definition control (op key val : string) : gmap string string :=
  <["Op" := op]> (<[key := val]> ∅).

(** ** Vocabulary of the statements *)

(** The sockets of the registered connections, in registry order. *)
Definition registry_sockets (w : World) : list nat :=
  (fun p => socket (heap w p)) <$> connections w.

Definition known_op (op : string) : bool :=
  String.eqb op "update" || String.eqb op "stop" || String.eqb op "start"
  || String.eqb op "averaging" || String.eqb op "interval".

(** The writes a broadcast makes to [targets], in order: the [j]-th of
    them carries [mk (k + j)] and is the [(n + j)]-th write overall, which
    decides whether it fails. *)
Fixpoint deliveries (wf : nat -> nat -> bool) (n : nat) (mk : nat -> Message)
    (k : nat) (targets : list Connection) : list Write :=
  match targets with
  | [] => []
  | c :: rest =>
      mkWrite (socket c) (mk k) (wf (socket c) n)
        :: deliveries wf (S n) mk (S k) rest
  end.

(** What those writes print: nothing without debug; with it, the message
    before each write and "failed writing" after each failed one. *)
Definition delivery_log (dbg : bool) (ds : list Write) : list LogLine :=
  if dbg then
    flat_map (fun d => LogArrow (payload d)
                         :: if failed d then [LogFailedWriting] else []) ds
  else [].

(** The world after the writes [ds]: only the wire and the console have
    changed. *)
Definition delivered (w : World) (ds : list Write) : World :=
  set_log (log w ++ delivery_log (debug w) ds) (set_wire (wire w ++ ds) w).

(** The snapshot [change] sends when the clock has been read [k] times. *)
Definition snapshot (w : World) (k : nat) : Message :=
  ChangeMessage "enabled" (Z.quot (wrap64 (clock w k)) 1000) (interval w)
                (discrete w) (enabled_tree (present w)).

Definition is_failed_writing (l : LogLine) : bool :=
  match l with LogFailedWriting => true | _ => false end.

(** The signon message [monitor] builds when the clock has been read [k]
    times. *)
Definition signon (w : World) (k : nat) : Message :=
  SignonMessage (Z.quot (wrap64 (clock w k)) 1000) (signon_tree (present w))
                (signon_sources (present w)).

(** The world in which [monitor] writes the signon message: [c] lives at
    [addr], "auth succeeded" is printed under debug, the clock has been
    read once. *)
Definition authenticated (sock addr : nat) (w : World) : World :=
  let wa := set_heap (<[addr := mkConnection sock false]> (heap w)) w in
  let wb := if debug w then set_log (log w ++ [LogAuthSucceeded]) wa else wa in
  set_clock_reads (S (clock_reads w)) wb.

(** The world right after [change(c)] in a handshake whose signon write
    succeeded: the registry is still the one [monitor] started from. *)
Definition greeted (sock addr : nat) (w : World) : World :=
  let w1 := delivered (authenticated sock addr w)
              [mkWrite sock (signon w (clock_reads w)) false] in
  delivered (set_clock_reads (S (S (clock_reads w))) w1)
    [mkWrite sock (snapshot w (S (clock_reads w)))
             (wfail w sock (S (length (wire w))))].

(** The event at position [i] of the sensor at position [k]. *)
Definition event_at (ps : list Sensor) (k i : nat) : option Event :=
  ps !! k ≫= fun s => events s !! i.

(** Position [(k', i')] comes before [(k, i)] in the order [state] scans
    sensors and their events. *)
Definition scanned_before (k' i' k i : nat) : Prop :=
  k' < k \/ (k' = k /\ i' < i).

(** Runs the handshake's monadic steps on a destructed world, unfolding
    only the operations of this file. *)
Ltac handshake_run :=
  cbv beta iota zeta
      delta [negb bind modify debugln println now_micros get ret change
             WriteJSON greeted delivered authenticated delivery_log signon
             snapshot
             set_interval set_discrete set_present set_heap set_connections
             set_clock_reads set_wire set_log
             interval discrete debug coalescing present heap connections
             wfail clock clock_reads wire log socket stopped
             to payload failed].

(** The world after [monitor]'s debug print of a received message. *)
Definition recv_logged (msg : gmap string string) (w : World) : World :=
  if debug w then set_log (log w ++ [LogRecv msg]) w else w.

(** The registered addresses a data batch is written to: those whose
    connection is not stopped. *)
Definition data_targets (w : World) : list nat :=
  filter (fun p => stopped (heap w p) = false) (connections w).

(** The decimal numeral with the given digits, most significant first,
    and the number it denotes. *)
Definition digit_char (d : nat) : Ascii.ascii := Ascii.ascii_of_nat (48 + d).

Fixpoint digits_string (ds : list nat) : string :=
  match ds with
  | [] => EmptyString
  | d :: rest => String (digit_char d) (digits_string rest)
  end.

Definition digits_value (ds : list nat) : Z :=
  foldl (fun acc d => (acc * 10 + Z.of_nat d)%Z) 0%Z ds.

(** ** initweb *)

(** [strings.Split(s, sep)] for a separator of one byte. *)
Fixpoint Split (s : string) (sep : Ascii.ascii) : list string :=
  match s with
  | EmptyString => [EmptyString]
  | String a rest =>
      if Ascii.eqb a sep then EmptyString :: Split rest sep
      else match Split rest sep with
           | [] => [String a EmptyString]
           | h :: t => String a h :: t
           end
  end.

(** How [initweb] ends: serving [path] and announcing [port], or with a
    panic, before or after the listener has been started. *)
Inductive InitOutcome :=
| Serving (path port : string)
| InitPanic (reason : string) (listening : bool).

(** [initweb], with [readable p] telling whether [unix.Access(p, R_OK)]
    succeeds. The index [1] into the split address is Go's bounds-checked
    indexing. *)
Definition initweb (readable : string -> bool) (addr : string) : InitOutcome :=
  let path := "/usr/local/share/numascope" in
  let chosen :=
    if readable path then Some path
    else if readable "resources" then Some "resources"
    else None in
  match chosen with
  | None =>
      InitPanic "/usr/local/share/numascope or resources not present" false
  | Some path =>
      match Split addr ":"%char !! 1 with
      | Some port => Serving path port
      | None => InitPanic "runtime error: index out of range [1] with length 1" true
      end
  end.

(** * The first version of the web server

    webserver.go also holds the earlier version of the server: the
    registry is a slice of sockets, [update] sends each sample vector to
    every socket, [change] sends the list of enabled events, and the read
    loop ignores what clients send. *)

Module Legacy.

(** An entry of a sensor's [supported()] or [enabled] list. *)
Record Elem := mkElem { desc : string }.

Record Sensor := mkSensor {
  name : string;
  supported : list Elem;
  enabled : list Elem
}.

Inductive Message :=
| SignonMessage (Interval : Z) (Tree : list (gmap string (list string)))
| EnabledList (enabled : list string)
| Samples (samples : list Z).

Record Write := mkWrite { to : nat; payload : Message; failed : bool }.

Inductive LogLine :=
| LogUpgrade
| LogRead
| LogAuthFailed
| LogAuthSucceeded
| LogWrite
| LogFailedWriting
| LogFailedReading
| LogRecv (msg : string).

Record World := mkWorld {
  interval : Z;
  debug : bool;
  sensors : list Sensor;
  connections : list nat;
  wfail : nat -> nat -> bool;
  wire : list Write;
  log : list LogLine
}.

Inductive Outcome (A : Type) :=
| Ret (a : A) (w : World)
| Panic (reason : string) (w : World).
Arguments Ret {A} a w.
Arguments Panic {A} reason w.

Definition world_of {A} (o : Outcome A) : World :=
  match o with Ret _ w => w | Panic _ w => w end.

Definition set_connections (v : list nat) (w : World) : World :=
  mkWorld (interval w) (debug w) (sensors w) v (wfail w) (wire w) (log w).

(** [if *debug { fmt.Println(...) }] *)
Definition debugln (l : LogLine) (w : World) : World :=
  if debug w then
    mkWorld (interval w) (debug w) (sensors w) (connections w) (wfail w)
            (wire w) (log w ++ [l])
  else w.

(** [c.WriteJSON(msg)] on a socket: whether it failed, and the world
    after. *)
Definition WriteJSON (c : nat) (msg : Message) (w : World) : bool * World :=
  let err := wfail w c (length (wire w)) in
  (err, mkWorld (interval w) (debug w) (sensors w) (connections w) (wfail w)
                (wire w ++ [mkWrite c msg err]) (log w)).

(** The list [change] builds: the word enabled, then the descriptions of
    every sensor's enabled entries. *)
Definition enabled_list (ss : list Sensor) : list string :=
  "enabled" :: concat ((fun s => desc <$> enabled s) <$> ss).

(** [change(c)]: the result of the write is dropped. *)
Definition change (c : nat) (w : World) : World :=
  snd (WriteJSON c (EnabledList (enabled_list (sensors w))) w).

(** The loop of [update] over the sockets [range connections] yields. *)
Fixpoint update_loop (cs : list nat) (samples : list Z) (w : World) : World :=
  match cs with
  | [] => w
  | c :: rest =>
      let r := WriteJSON c (Samples samples) w in
      update_loop rest samples
        (if fst r then debugln LogFailedWriting (snd r) else snd r)
  end.

Definition update (samples : list Z) (w : World) : World :=
  update_loop (connections w) samples w.

Fixpoint remove_loop (c : nat) (idx : list nat) (w : World) : Outcome unit :=
  match idx with
  | [] => Panic "element not found" w
  | i :: rest =>
      match connections w !! i, connections w !! (length (connections w) - 1) with
      | Some p, Some l =>
          if Nat.eqb p c then
            Ret tt (set_connections
                      (take (length (connections w) - 1)
                            (<[i := l]> (connections w))) w)
          else remove_loop c rest w
      | _, _ => Panic "index out of range" w
      end
  end.

Definition remove (c : nat) (w : World) : Outcome unit :=
  remove_loop c (seq 0 (length (connections w))) w.

Definition token : string := "463ba1974b06".

(** The [Tree] of the signon message: one single-entry map per sensor. *)
Definition signon_tree (ss : list Sensor) : list (gmap string (list string)) :=
  (fun s => {[name s := desc <$> supported s]}) <$> ss.

(** [monitor] up to its read loop; the result is [true] when the loop is
    entered. [c] is the socket [upgrader.Upgrade] returned. *)
Definition monitor_handshake (upgrade_err : bool) (c : nat)
    (first : option string) (w : World) : bool * World :=
  if upgrade_err then (false, debugln LogUpgrade w)
  else
    match first with
    | None => (false, debugln LogRead w)
    | Some message =>
        if negb (String.eqb message token) then (false, debugln LogAuthFailed w)
        else
          let w1 := debugln LogAuthSucceeded w in
          let msg := SignonMessage (interval w1) (signon_tree (sensors w1)) in
          let r := WriteJSON c msg w1 in
          if fst r then (false, debugln LogWrite (snd r))
          else
            let w2 := change c (snd r) in
            (true, set_connections (connections w2 ++ [c]) w2)
    end.

(** One iteration of the read loop: [input] is the string [ReadJSON]
    decoded, [None] for an error; the result is [true] when the loop goes
    on. *)
Definition monitor_step (c : nat) (input : option string) (w : World)
  : Outcome bool :=
  match input with
  | None =>
      match remove c (debugln LogFailedReading w) with
      | Ret _ w' => Ret false w'
      | Panic r w' => Panic r w'
      end
  | Some msg => Ret true (debugln (LogRecv msg) w)
  end.

End Legacy.

(** * monitor among the other goroutines *)

(** [monitor] is registered with [http.HandleFunc] and runs under the
    HTTP server [initweb] starts with [http.ListenAndServe]. That server
    calls a handler under a deferred recover: a panic of the handler is
    caught and reported on the server's own error log, the handler's
    goroutine ends and the process goes on. [served h] is the handler [h]
    run this way; the result [None] says that it ended by a panic. The
    server's error log is not part of the world. *)
Definition served {A} (h : M A) : M (option A) :=
  fun w => match h w with
           | Ret a w' => Ret (Some a) w'
           | Panic _ w' => Ret None w'
           end.

(** Where [monitor] stands between its entry and its read loop: at its
    entry, before the signon write, before [change(c)], before the append
    to [connections], in the read loop, or returned. *)
Inductive Pc := PcStart | PcSignon | PcChange | PcRegister | PcLoop | PcReturned.

(** [monitor] up to the read loop, one step at a time, so that what other
    goroutines do in between can be told. The first step is everything
    before the signon message is built (upgrade, [c], first read, token
    check), which neither writes to a socket nor touches the registry;
    then the signon write, [change(c)] and the append are one step each. *)
Definition handshake_step (upgrade_err : bool) (sock addr : nat)
    (first : option string) (pc : Pc) : M Pc :=
  match pc with
  | PcStart =>
      if upgrade_err then
        run debugln LogUpgrade; ret PcReturned
      else
        run modify (fun w =>
              set_heap (<[addr := mkConnection sock false]> (heap w)) w);
        match first with
        | None => run debugln LogRead; ret PcReturned
        | Some message =>
            if negb (String.eqb message token) then
              run debugln LogAuthFailed; ret PcReturned
            else
              run debugln LogAuthSucceeded; ret PcSignon
        end
  | PcSignon =>
      do ts <- now_micros;
      do w <- get;
      let msg := SignonMessage ts (signon_tree (present w))
                               (signon_sources (present w)) in
      do err <- WriteJSON (heap w addr) msg;
      if err then
        run debugln LogFailedWriting; ret PcReturned
      else ret PcChange
  | PcChange =>
      do w' <- get;
      run change (heap w' addr);
      ret PcRegister
  | PcRegister =>
      run modify (fun w => set_connections (connections w ++ [addr]) w);
      ret PcLoop
  | PcLoop => ret PcLoop
  | PcReturned => ret PcReturned
  end.

(** Whether the read loop has been reached. *)
Definition in_loop (pc : Pc) : bool :=
  match pc with PcLoop => true | _ => false end.

(** What the sampling goroutine sends while [monitor] runs: a data batch
    ([broadcastData]) or a label ([broadcastLabel]). Each broadcast ranges
    over the registry as it is when its loop starts. *)
Inductive LoopAction :=
| SendData (batch : list (list Z))
| SendLabel (timestamp : Z) (label : string).

Definition loop_action (a : LoopAction) : M unit :=
  match a with
  | SendData batch => broadcastData batch
  | SendLabel timestamp label => broadcastLabel timestamp label
  end.

(** [monitor]'s handshake interleaved with the sampling goroutine: each
    entry of [sched] is what the sampling goroutine sends before the next
    step of the handshake. Once the read loop is reached (or [monitor] has
    returned) further steps do nothing and only the broadcasts go on. *)
Fixpoint handshake_among (upgrade_err : bool) (sock addr : nat)
    (first : option string) (sched : list (list LoopAction)) (pc : Pc)
  : M Pc :=
  match sched with
  | [] => ret pc
  | acts :: rest =>
      run range acts loop_action;
      do pc' <- handshake_step upgrade_err sock addr first pc;
      handshake_among upgrade_err sock addr first rest pc'
  end.

(** A write to [sock] of the signon message, and of the enabled snapshot,
    that [monitor] builds in world [w] (at any time). *)
Definition signon_write (w : World) (sock : nat) (d : Write) : Prop :=
  to d = sock
  /\ exists ts, payload d = SignonMessage ts (signon_tree (present w))
                                         (signon_sources (present w)).

Definition enabled_write (w : World) (sock : nat) (d : Write) : Prop :=
  to d = sock
  /\ exists ts, payload d = ChangeMessage "enabled" ts (interval w)
                           (discrete w) (enabled_tree (present w)).

Definition is_loop_message (m : Message) : Prop :=
  match m with
  | DataMessage _ | LabelMessage _ _ _ => True
  | _ => False
  end.

(** What has been written to the new socket when [monitor] stands at
    [pc]: nothing before the signon write; the signon message alone, sent
    successfully, before [change(c)]; the signon message and then the
    enabled snapshot before the append; those two, in that order, followed
    by data batches and labels only, in the read loop; and after a return,
    nothing or the one signon message whose write failed. *)
Definition greeting (w : World) (sock : nat) (pc : Pc) (l : list Write)
  : Prop :=
  match pc with
  | PcStart | PcSignon => l = []
  | PcChange =>
      exists d1, l = [d1] /\ signon_write w sock d1 /\ failed d1 = false
  | PcRegister =>
      exists d1 d2, l = [d1; d2]
        /\ signon_write w sock d1 /\ failed d1 = false
        /\ enabled_write w sock d2
  | PcLoop =>
      exists d1 d2 rest, l = d1 :: d2 :: rest
        /\ signon_write w sock d1 /\ failed d1 = false
        /\ enabled_write w sock d2
        /\ Forall (fun d => is_loop_message (payload d)) rest
  | PcReturned =>
      l = [] \/ exists d1, l = [d1] /\ signon_write w sock d1
                            /\ failed d1 = true
  end.

(** What the interleaved handshake keeps true of the world [w'] reached
    from [w] when [monitor] stands at [pc]. *)
Definition handshake_inv (w : World) (sock addr : nat) (pc : Pc)
    (w' : World) : Prop :=
  (exists news, wire w' = wire w ++ news
                /\ greeting w sock pc (filter (fun d => to d = sock) news))
  /\ connections w' = connections w ++ (if in_loop pc then [addr] else [])
  /\ (forall p, p <> addr -> heap w' p = heap w p)
  /\ match pc with
     | PcStart | PcReturned => True
     | _ => heap w' addr = mkConnection sock false
     end
  /\ present w' = present w /\ interval w' = interval w
  /\ discrete w' = discrete w.

(** Runs the statements of one handshake step on a destructed world. *)
Ltac step_run :=
  cbv beta iota zeta
      delta [negb bind modify debugln println now_micros get ret change
             WriteJSON handshake_step delivered delivery_log signon snapshot
             set_interval set_discrete set_present set_heap set_connections
             set_clock_reads set_wire set_log
             interval discrete debug coalescing present heap connections
             wfail clock clock_reads wire log socket stopped
             to payload failed].

(** * Properties *)

(** ** strconv.Atoi on examples *)

Example Atoi_50 : Atoi "50" = (50%Z, None).
Proof. reflexivity. Qed.

Example Atoi_minus : Atoi "-7" = ((-7)%Z, None).
Proof. reflexivity. Qed.

Example Atoi_abc : Atoi "abc" = (0%Z, Some ErrSyntax).
Proof. reflexivity. Qed.

Example Atoi_empty : Atoi "" = (0%Z, Some ErrSyntax).
Proof. reflexivity. Qed.

Example Atoi_huge :
  Atoi "99999999999999999999" = ((2 ^ 63 - 1)%Z, Some ErrRange).
Proof. vm_compute. reflexivity. Qed.

(** ** The coalescer *)

Lemma coalesce_flush_inv window st timestamp samples st' batch :
  coalesce window st timestamp samples = (st', Some batch) ->
  batch = epochs st /\ batch <> [] /\ st' = mkLive timestamp [].
Proof.
  unfold coalesce. intros H.
  destruct (wrap64 (timestamp - lastTimestamp st) <? window)%Z; simpl in H;
    [discriminate|].
  destruct (epochs st) as [|e es] eqn:E; simpl in H; [discriminate|].
  injection H as <- <-. done.
Qed.

Lemma coalesce_keep_inv window st timestamp samples st' :
  coalesce window st timestamp samples = (st', None) ->
  st' = mkLive (lastTimestamp st) (epochs st ++ [samples]).
Proof.
  unfold coalesce. intros H.
  destruct (_ || _); [by injection H as <-|discriminate].
Qed.

(** No batch handed to [broadcastData] is empty. *)
Lemma coalesce_run_batches_nonempty window eps : forall st,
  Forall (fun b => b <> []) (snd (coalesce_run window st eps)).
Proof.
  induction eps as [|[ts rs] eps IH]; intros st; simpl; [constructor|].
  destruct (coalesce window st ts (ts :: rs)) as [st' [b|]] eqn:E; simpl.
  - constructor; [|apply IH].
    by destruct (coalesce_flush_inv _ _ _ _ _ _ E) as (_ & ? & _).
  - apply IH.
Qed.

(** The batches flushed, followed by the buffer still open, are the input
    epochs in order with some left out: nothing is duplicated or
    reordered. *)
Lemma coalesce_run_sublist window eps : forall st,
  sublist (concat (snd (coalesce_run window st eps))
             ++ epochs (fst (coalesce_run window st eps)))
          (epochs st ++ epochs_of eps).
Proof.
  induction eps as [|[ts rs] eps IH]; intros st; simpl.
  - by rewrite app_nil_r.
  - destruct (coalesce window st ts (ts :: rs)) as [st' [b|]] eqn:E; simpl.
    + destruct (coalesce_flush_inv _ _ _ _ _ _ E) as (-> & _ & ->).
      rewrite <- (assoc_L (++)). apply sublist_app; [reflexivity|].
      apply sublist_cons. apply (IH (mkLive ts [])).
    + rewrite (coalesce_keep_inv _ _ _ _ _ E).
      etrans; [apply IH|]. simpl. by rewrite <- (assoc_L (++)).
Qed.

(** C1 (evaluation at the failing input). With a window of 10 and epochs
    stamped 1, 20, 25 and 40, the loop flushes the batches [[1]] and
    [[25]]: the epochs stamped 20 and 40, which trigger the flushes, are in
    no batch and not in the buffer left open, so the batches do not
    concatenate to the input. *)
Lemma coalesce_run_drops_flush_epochs :
  let eps := [(1, []); (20, []); (25, []); (40, [])]%Z in
  coalesce_run 10 live_init eps
    = (mkLive 40 [], [[[1%Z]]; [[25%Z]]])
  /\ epochs_of eps = [[1]; [20]; [25]; [40]]%Z
  /\ concat (snd (coalesce_run 10 live_init eps)) <> epochs_of eps.
Proof.
  split; [reflexivity|]. split; [reflexivity|]. discriminate.
Qed.

(** The same on the running loop: one connection, a clock advancing one
    millisecond per tick and a 10 microsecond window. Four ticks sample
    the sensor four times, and the connection receives the epochs of the
    first and third tick only. *)
Example live_ticks_drop_flush_epochs :
  let w0 := sample_world false [5] [] [idle_sensor "a" []] in
  let idle := mkFifo false 0 "" in
  let r := live_ticks [idle; idle; idle; idle] live_init w0 in
  value_of r = Some (mkLive 3000 [])
  /\ wire (world_of r)
     = [mkWrite 5 (DataMessage [[0; 0]%Z]) false;
        mkWrite 5 (DataMessage [[2000; 0]%Z]) false]
  /\ sampled <$> present (world_of r) = [4].
Proof. vm_compute. done. Qed.

(** ** The interval operation *)

(** What the interval case of the message loop does, for any value. *)
Lemma monitor_step_interval addr msg w :
  field "Op" msg = "interval" ->
  monitor_step addr (Some msg) w =
    let w1 := if debug w then set_log (log w ++ [LogRecv msg]) w else w in
    let r := Atoi (field "Value" msg) in
    let w2 := set_interval (fst r) w1 in
    Ret true (match snd r with
              | Some _ =>
                  set_log (log w2 ++ [LogUndefinedValue (field "Value" msg)]) w2
              | None => w2
              end).
Proof.
  intros Hop. unfold monitor_step. rewrite Hop. simpl.
  unfold bind, debugln, println, modify, ret.
  destruct (debug w); simpl; destruct (snd (Atoi (field "Value" msg)));
    reflexivity.
Qed.

(** Whatever the value, the interval afterwards is the number [Atoi]
    returned, error or not, and no socket is written to. *)
Lemma monitor_step_interval_effect addr msg w :
  field "Op" msg = "interval" ->
  let r := monitor_step addr (Some msg) w in
  value_of r = Some true
  /\ interval (world_of r) = fst (Atoi (field "Value" msg))
  /\ wire (world_of r) = wire w
  /\ connections (world_of r) = connections w.
Proof.
  intros Hop r. subst r. rewrite (monitor_step_interval _ _ _ Hop).
  cbv zeta.
  destruct (debug w); destruct (snd (Atoi (field "Value" msg)));
    repeat split; reflexivity.
Qed.

(** C2 (evaluation at the failing input). With the interval at 100, the
    message with Op interval and Value abc is survived and reported as an
    undefined value, and leaves the interval at 0, the number [Atoi]
    returns beside its error. *)
Lemma interval_abc_overwrites_interval :
  let w0 := sample_world false [5] [] [] in
  let r := monitor_step 5 (Some (control "interval" "Value" "abc")) w0 in
  interval w0 = 100%Z
  /\ snd (Atoi "abc") = Some ErrSyntax
  /\ value_of r = Some true
  /\ log (world_of r) = [LogUndefinedValue "abc"]
  /\ interval (world_of r) = 0%Z.
Proof. vm_compute. done. Qed.

(** ** state with the description all *)

(** With at least one sensor present, the description all is served by
    the first sensor alone: the loop returns from inside its first pass. *)
Lemma state_all_first_sensor st s rest w :
  present w = s :: rest ->
  state "all" st w =
    Ret tt (set_present
              (snd (Sample (Enable (discrete w)
                      (set_events (set_enabled true <$> events s) s))) :: rest)
              w).
Proof. intros H. unfold state. rewrite H. reflexivity. Qed.

(** C3 (evaluation at the failing input). With two sensors, each with one
    disabled event, the description all enables, re-applies the mode to
    and samples the first sensor only; the second keeps its event
    disabled and is neither enabled nor sampled. *)
Lemma state_all_leaves_second_sensor :
  let w0 := sample_world false [] []
              [idle_sensor "a" [mkEvent "x" false];
               idle_sensor "b" [mkEvent "y" false]] in
  let r := state "all" true w0 in
  value_of r = Some tt
  /\ events <$> present (world_of r)
     = [[mkEvent "x" true]; [mkEvent "y" false]]
  /\ sampled <$> present (world_of r) = [1; 0]
  /\ applied <$> present (world_of r) = [[false]; []].
Proof. vm_compute. done. Qed.

(** ** Rebroadcast after a control message *)

(** C4 (evaluation at the failing input). With one registered connection,
    the message setting the interval to 50 changes the interval and writes
    nothing to any socket, whereas the averaging message writes one
    enabled snapshot to the connection. *)
Lemma interval_change_not_rebroadcast :
  let w0 := sample_world false [5] [] [idle_sensor "a" [mkEvent "x" true]] in
  let r := monitor_step 5 (Some (control "interval" "Value" "50")) w0 in
  let r' := monitor_step 5 (Some (control "averaging" "Value" "false")) w0 in
  value_of r = Some true
  /\ interval (world_of r) = 50%Z
  /\ wire (world_of r) = []
  /\ wire (world_of r')
     = [mkWrite 5 (ChangeMessage "enabled" 0 100 true {["a" := ["x"]]}) false].
Proof. vm_compute. done. Qed.

(** ** remove *)

Lemma last_conn_is_Some w i :
  i < length (connections w) -> is_Some (last_conn w).
Proof. intros H. apply lookup_lt_is_Some. lia. Qed.

(** A socket no registered connection holds is not found. *)
Lemma remove_loop_absent c w : forall idx,
  Forall (fun i => i < length (connections w)) idx ->
  c ∉ registry_sockets w ->
  remove_loop c idx w = Panic "element not found" w.
Proof.
  induction idx as [|i idx IH]; intros Hidx Hc; simpl; [reflexivity|].
  inversion Hidx as [|? ? Hi Hrest]; subst.
  destruct (lookup_lt_is_Some_2 _ _ Hi) as [p Hp]. rewrite Hp.
  destruct (last_conn_is_Some _ _ Hi) as [l ->].
  destruct (Nat.eqb_spec (socket (heap w p)) c) as [<-|_]; [|by apply IH].
  exfalso. apply Hc. unfold registry_sockets.
  apply list_elem_of_fmap. exists p. split; [done|].
  by apply list_elem_of_lookup_2 in Hp.
Qed.

Lemma remove_absent c w :
  c ∉ registry_sockets w -> remove c w = Panic "element not found" w.
Proof.
  intros H. apply remove_loop_absent; [|done].
  apply list.Forall_forall. intros i Hi. apply elem_of_seq in Hi. lia.
Qed.

(** A successful [remove] overwrote some matching slot with the last entry
    and dropped the last slot. *)
Lemma remove_loop_found c w w1 : forall idx,
  remove_loop c idx w = Ret tt w1 ->
  exists i p l,
    connections w !! i = Some p /\ socket (heap w p) = c
    /\ last_conn w = Some l
    /\ w1 = set_connections
              (take (length (connections w) - 1) (<[i := l]> (connections w)))
              w.
Proof.
  induction idx as [|i idx IH]; simpl; intros H; [discriminate|].
  destruct (connections w !! i) as [p|] eqn:Hp; [|discriminate].
  destruct (last_conn w) as [l|] eqn:Hl; [|discriminate].
  destruct (Nat.eqb_spec (socket (heap w p)) c) as [Hc|_]; [|by apply IH].
  injection H as <-. by exists i, p, l.
Qed.

(** Every entry left after a swap-with-last removal at [i] was at an index
    other than [i] before. *)
Lemma swap_remove_lookup (conns : list nat) (i j l p : nat) :
  conns !! (length conns - 1) = Some l ->
  take (length conns - 1) (<[i := l]> conns) !! j = Some p ->
  exists j', j' <> i /\ conns !! j' = Some p.
Proof.
  intros Hl Hj.
  apply lookup_take_Some in Hj as [Hj Hlt].
  destruct (decide (i = j)) as [->|Hne].
  - rewrite list_lookup_insert_eq in Hj by lia.
    injection Hj as <-. exists (length conns - 1). split; [lia|done].
  - rewrite list_lookup_insert_ne in Hj by done. by exists j.
Qed.

(** C5 (as amended). Once [remove] has taken a connection's socket out of
    a registry that held every socket at most once, calling [remove]
    again with the same socket panics with "element not found": the
    second call is fatal, not a no-op. *)
Theorem remove_again_panics c w w1 :
  NoDup (registry_sockets w) ->
  remove c w = Ret tt w1 ->
  remove c w1 = Panic "element not found" w1.
Proof.
  intros Hnd H1. apply remove_loop_found in H1 as (i & p & l & Hp & Hc & Hl & ->).
  apply remove_absent. unfold registry_sockets. simpl.
  intros Hin. apply list_elem_of_fmap in Hin as (q & Hq & Hin).
  apply list_elem_of_lookup in Hin as [j Hj].
  destruct (swap_remove_lookup _ _ _ _ _ Hl Hj) as (j' & Hne & Hj').
  apply Hne. apply (NoDup_lookup _ j' i c Hnd); unfold registry_sockets.
  - by rewrite list_lookup_fmap, Hj'; simpl; rewrite Hq.
  - by rewrite list_lookup_fmap, Hp; simpl; rewrite Hc.
Qed.

Lemma remove_again_panics_witness :
  let w0 := sample_world false [5; 6] [] [] in
  remove 5 (set_connections [6] w0)
  = Panic "element not found" (set_connections [6] w0).
Proof.
  intros w0. apply (remove_again_panics 5 w0).
  - apply (bool_decide_unpack _). vm_compute. reflexivity.
  - reflexivity.
Defined.

(** C5 (counterexample). With connections 5 and 6 registered, removing 5
    succeeds and leaves 6; removing 5 a second time panics. *)
Lemma remove_twice_panics :
  let w0 := sample_world false [5; 6] [] [] in
  let r1 := remove 5 w0 in
  value_of r1 = Some tt
  /\ connections (world_of r1) = [6]
  /\ panic_of (remove 5 (world_of r1)) = Some "element not found".
Proof. vm_compute. done. Qed.

(** ** The sampling loop with nobody connected *)

Lemma live_tick_idle rd st w :
  connections w = [] ->
  live_tick rd st w =
    let w0 := if fifo_err rd then set_log (log w ++ [LogFifo]) w else w in
    Ret st (set_clock_reads (S (clock_reads w)) w0).
Proof.
  intros H. unfold live_tick, validateNonblock, broadcastLabel, now_micros,
    println, modify, bind, get, ret.
  destruct (fifo_err rd); destruct (0 <? fifo_n rd)%Z; simpl;
    rewrite H; simpl; rewrite ?H; reflexivity.
Qed.

Lemma live_ticks_idle rds : forall st w,
  connections w = [] ->
  value_of (live_ticks rds st w) = Some st
  /\ wire (world_of (live_ticks rds st w)) = wire w
  /\ present (world_of (live_ticks rds st w)) = present w
  /\ connections (world_of (live_ticks rds st w)) = [].
Proof.
  induction rds as [|rd rds IH]; intros st w H; simpl; [done|].
  unfold bind. rewrite (live_tick_idle rd st w H). simpl.
  destruct (fifo_err rd);
    (edestruct IH as (-> & -> & -> & ->); [|done]); apply H.
Qed.

(** C7. While the registry is empty, an iteration of the sampling loop
    writes to no socket and leaves every sensor as it was (no [Sample]
    call), whatever the label fifo delivers; so does any number of
    iterations, three from a fresh start among them. *)
Theorem live_skips_sampling_without_connections w :
  connections w = [] ->
  (forall rd st,
     value_of (live_tick rd st w) = Some st
     /\ wire (world_of (live_tick rd st w)) = wire w
     /\ present (world_of (live_tick rd st w)) = present w)
  /\ (forall rd1 rd2 rd3,
        let r := live_ticks [rd1; rd2; rd3] live_init w in
        value_of r = Some live_init
        /\ wire (world_of r) = wire w
        /\ present (world_of r) = present w).
Proof.
  intros H. split.
  - intros rd st. rewrite (live_tick_idle rd st w H).
    by destruct (fifo_err rd).
  - intros rd1 rd2 rd3.
    by destruct (live_ticks_idle [rd1; rd2; rd3] live_init w H) as (? & ? & ? & _).
Qed.

Lemma live_skips_sampling_without_connections_witness :
  let w0 := sample_world false [] [] [idle_sensor "a" [mkEvent "x" true]] in
  let label := mkFifo false 3 "go" in
  let r := live_ticks [label; label; label] live_init w0 in
  wire (world_of r) = [] /\ sampled <$> present (world_of r) = [0].
Proof.
  intros w0 label r.
  destruct (live_skips_sampling_without_connections w0) as [_ H3];
    [reflexivity|].
  destruct (H3 label label label) as (_ & Hw & Hp).
  fold r in Hw, Hp. rewrite Hw, Hp. split; reflexivity.
Defined.

(** ** Unexpected State values and unknown operations *)

(** [toggle] panics on any value other than on and off, before touching
    anything. *)
Lemma toggle_unexpected_state d val w :
  val <> "on" -> val <> "off" ->
  toggle d val w = Panic "unexpected state" w.
Proof.
  intros Hon Hoff. unfold toggle, bind.
  apply String.eqb_neq in Hon, Hoff. by rewrite Hon, Hoff.
Qed.

(** An update message whose State is neither on nor off makes the
    message loop panic with "unexpected state", whereas a message with an
    unknown Op is printed and the loop goes on with nothing else
    changed. *)
Theorem update_with_bad_state_panics addr msg w :
  let w0 := if debug w then set_log (log w ++ [LogRecv msg]) w else w in
  (field "Op" msg = "update" ->
   field "State" msg <> "on" -> field "State" msg <> "off" ->
   monitor_step addr (Some msg) w = Panic "unexpected state" w0)
  /\ (known_op (field "Op" msg) = false ->
      monitor_step addr (Some msg) w =
        Ret true (set_log (log w0 ++ [LogUnknownMessage msg]) w0)).
Proof.
  intros w0. split.
  - intros Hop Hon Hoff. unfold monitor_step. rewrite Hop. simpl.
    unfold bind at 1 2. unfold debugln, println, modify.
    subst w0. destruct (debug w); simpl;
      by rewrite toggle_unexpected_state.
  - unfold known_op. intros Hop.
    repeat (apply orb_false_elim in Hop as [Hop ?]).
    unfold monitor_step.
    repeat match goal with H : String.eqb _ _ = false |- _ =>
             rewrite H; clear H end.
    unfold bind, debugln, println, modify, ret. subst w0.
    by destruct (debug w).
Qed.

Lemma update_with_bad_state_panics_witness :
  let w := sample_world false [5] [] [idle_sensor "a" [mkEvent "x" true]] in
  monitor_step 5 (Some (control "update" "State" "maybe")) w
    = Panic "unexpected state" w
  /\ monitor_step 5 (Some (control "reset" "Value" "1")) w
     = Ret true
         (set_log [LogUnknownMessage (control "reset" "Value" "1")] w).
Proof.
  intros w. split.
  - apply (update_with_bad_state_panics 5 (control "update" "State" "maybe") w);
      [reflexivity | discriminate | discriminate].
  - apply (update_with_bad_state_panics 5 (control "reset" "Value" "1") w).
    reflexivity.
Defined.

(** ** Broadcasts *)

Lemma deliveries_to wf mk targets : forall n k,
  to <$> deliveries wf n mk k targets = socket <$> targets.
Proof.
  induction targets as [|c rest IH]; intros n k; simpl; [done|].
  by rewrite IH.
Qed.

Lemma deliveries_lookup wf mk targets : forall n k j c,
  targets !! j = Some c ->
  deliveries wf n mk k targets !! j
  = Some (mkWrite (socket c) (mk (k + j)) (wf (socket c) (n + j))).
Proof.
  induction targets as [|c0 rest IH]; intros n k j c Hj; [done|].
  destruct j as [|j]; simpl in *.
  - injection Hj as ->. by rewrite !Nat.add_0_r.
  - rewrite (IH _ _ _ _ Hj). by rewrite !Nat.add_succ_r.
Qed.

Lemma delivery_log_quiet ds : delivery_log false ds = [].
Proof. reflexivity. Qed.

(** With debug on, "failed writing" is printed once per failed write. *)
Lemma delivery_log_failures ds :
  length (filter (fun l => is_failed_writing l = true) (delivery_log true ds))
  = length (filter (fun d => failed d = true) ds).
Proof.
  induction ds as [|d ds IH]; simpl; [done|].
  rewrite filter_cons_False by discriminate.
  destruct (failed d) eqn:E; simpl.
  - rewrite (filter_cons_True (fun d => failed d = true)) by done.
    simpl. f_equal. exact IH.
  - rewrite (filter_cons_False (fun d => failed d = true)) by congruence.
    exact IH.
Qed.

Lemma delivered_nil w : delivered w [] = w.
Proof.
  destruct w as [? ? dbg ? ? ? ? ? ? ? wr lg]. unfold delivered, delivery_log.
  destruct dbg; simpl; by rewrite !app_nil_r.
Qed.

Lemma delivered_cons w d ds :
  delivered (delivered w [d]) ds = delivered w (d :: ds).
Proof.
  destruct w as [? ? dbg ? ? ? ? ? ? ? wr lg]. unfold delivered, delivery_log.
  simpl. destruct dbg; simpl; rewrite <- !(assoc_L (++)); try done.
  by rewrite app_nil_r.
Qed.

Lemma WriteJSON_delivered c msg w :
  let err := wfail w (socket c) (length (wire w)) in
  bind (WriteJSON c msg)
       (fun err => if err then debugln LogFailedWriting else ret tt) w
  = Ret tt (delivered w [mkWrite (socket c) msg err]).
Proof.
  destruct w as [? ? dbg ? ? ? ? wf ? ? wr lg].
  unfold WriteJSON, bind, debugln, println, modify, ret, delivered,
    delivery_log. simpl.
  destruct dbg; simpl; destruct (wf (socket c) (length wr)); simpl;
    rewrite ?app_nil_r, <- ?(assoc_L (++)); reflexivity.
Qed.

Lemma length_wire_delivered w ds :
  length (wire (delivered w ds)) = length (wire w) + length ds.
Proof. unfold delivered. simpl. by rewrite length_app. Qed.

Lemma broadcastLabel_range ts label ps : forall w k,
  range ps (fun p =>
    do w' <- get;
    do err <- WriteJSON (heap w' p) (LabelMessage "label" ts label);
    if err then debugln LogFailedWriting else ret tt) w
  = Ret tt (delivered w
              (deliveries (wfail w) (length (wire w))
                 (fun _ => LabelMessage "label" ts label) k (heap w <$> ps))).
Proof.
  induction ps as [|p ps IH]; intros w k; simpl.
  - by rewrite delivered_nil.
  - unfold bind at 1. unfold bind at 1. unfold get at 1.
    rewrite WriteJSON_delivered. rewrite (IH _ (S k)).
    rewrite delivered_cons, length_wire_delivered. simpl.
    by rewrite Nat.add_1_r.
Qed.

Lemma broadcastData_range eps ps : forall w k,
  range ps (fun p =>
    do w' <- get;
    if stopped (heap w' p) then ret tt
    else
      do err <- WriteJSON (heap w' p) (DataMessage eps);
      if err then debugln LogFailedWriting else ret tt) w
  = Ret tt (delivered w
              (deliveries (wfail w) (length (wire w))
                 (fun _ => DataMessage eps) k
                 (filter (fun c => stopped c = false) (heap w <$> ps)))).
Proof.
  induction ps as [|p ps IH]; intros w k; simpl.
  - by rewrite delivered_nil.
  - unfold bind at 1. unfold bind at 1. unfold get at 1.
    destruct (stopped (heap w p)) eqn:E.
    + rewrite filter_cons_False by congruence. apply IH.
    + rewrite filter_cons_True by done.
      rewrite WriteJSON_delivered. rewrite (IH _ (S k)).
      rewrite delivered_cons, length_wire_delivered. simpl.
      by rewrite Nat.add_1_r.
Qed.

Lemma change_delivered c w :
  change c w
  = Ret tt (delivered (set_clock_reads (S (clock_reads w)) w)
              [mkWrite (socket c) (snapshot w (clock_reads w))
                       (wfail w (socket c) (length (wire w)))]).
Proof.
  unfold change. unfold bind at 1. unfold now_micros.
  unfold bind at 1. unfold get.
  by rewrite WriteJSON_delivered.
Qed.

Lemma change_all_range ps : forall w,
  range ps (fun p => do w' <- get; change (heap w' p)) w
  = Ret tt (set_clock_reads (clock_reads w + length ps)
              (delivered w
                 (deliveries (wfail w) (length (wire w)) (snapshot w)
                    (clock_reads w) (heap w <$> ps)))).
Proof.
  induction ps as [|p ps IH]; intros w; simpl.
  - rewrite delivered_nil, Nat.add_0_r. by destruct w.
  - unfold bind at 1. unfold bind at 1. unfold get at 1.
    rewrite change_delivered. rewrite IH.
    rewrite delivered_cons, length_wire_delivered. simpl.
    rewrite Nat.add_1_r, Nat.add_succ_r. f_equal.
Qed.

(** C8 (as amended). [broadcastData] makes one write per registered
    connection that is not stopped, [broadcastLabel] and the snapshot loop
    one write per registered connection, in registry order and whether or
    not earlier writes failed; they change nothing but the wire, the
    console and the clock, so a failing connection stays registered.
    "failed writing" is printed for a failed write only when debug is on
    (see [delivery_log]). *)
Theorem broadcasts_reach_every_connection w :
  (forall eps,
     broadcastData eps w
     = Ret tt (delivered w
                 (deliveries (wfail w) (length (wire w))
                    (fun _ => DataMessage eps) 0
                    (filter (fun c => stopped c = false)
                            (heap w <$> connections w)))))
  /\ (forall ts label,
        broadcastLabel ts label w
        = Ret tt (delivered w
                    (deliveries (wfail w) (length (wire w))
                       (fun _ => LabelMessage "label" ts label) 0
                       (heap w <$> connections w))))
  /\ change_all w
     = Ret tt (set_clock_reads (clock_reads w + length (connections w))
                 (delivered w
                    (deliveries (wfail w) (length (wire w)) (snapshot w)
                       (clock_reads w) (heap w <$> connections w))))
  /\ (forall ds, connections (delivered w ds) = connections w
                 /\ heap (delivered w ds) = heap w
                 /\ wire (delivered w ds) = wire w ++ ds
                 /\ log (delivered w ds) = log w ++ delivery_log (debug w) ds).
Proof.
  split; [|split; [|split]].
  - intros eps. unfold broadcastData, bind at 1, get at 1.
    apply broadcastData_range.
  - intros ts label. unfold broadcastLabel, bind at 1, get at 1.
    apply broadcastLabel_range.
  - unfold change_all, bind at 1, get at 1. apply change_all_range.
  - done.
Qed.

(** C8 (counterexample). Debug off, connections 5 and 6 registered, every
    write to socket 5 failing: the batch is written to 5 (failing) and then
    to 6, both stay registered, and nothing is printed about the
    failure. *)
Lemma failed_write_not_logged_without_debug :
  let w0 := sample_world false [5; 6] [5] [] in
  let r := broadcastData [[1%Z]] w0 in
  value_of r = Some tt
  /\ wire (world_of r)
     = [mkWrite 5 (DataMessage [[1%Z]]) true;
        mkWrite 6 (DataMessage [[1%Z]]) false]
  /\ connections (world_of r) = [5; 6]
  /\ log (world_of r) = [].
Proof. vm_compute. done. Qed.

(** A data batch is written only to sockets of registered connections. *)
Lemma broadcastData_only_registered eps w d :
  d ∈ deliveries (wfail w) (length (wire w)) (fun _ => DataMessage eps) 0
        (filter (fun c => stopped c = false) (heap w <$> connections w)) ->
  to d ∈ registry_sockets w.
Proof.
  intros Hd. apply (list_elem_of_fmap_2 to) in Hd.
  rewrite deliveries_to in Hd.
  apply list_elem_of_fmap in Hd as (c & -> & Hc).
  apply list_elem_of_filter in Hc as [_ Hc].
  apply list_elem_of_fmap in Hc as (p & -> & Hp).
  unfold registry_sockets. apply list_elem_of_fmap. by exists p.
Qed.

(** ** The handshake *)

Lemma WriteJSON_run c msg w :
  WriteJSON c msg w
  = let w1 := if debug w then set_log (log w ++ [LogArrow msg]) w else w in
    let err := wfail w (socket c) (length (wire w)) in
    Ret err (set_wire (wire w ++ [mkWrite (socket c) msg err]) w1).
Proof.
  unfold WriteJSON, bind, debugln, println, modify. by destruct (debug w).
Qed.

Lemma monitor_handshake_signon_failed sock addr w :
  wfail w sock (length (wire w)) = true ->
  monitor_handshake false sock addr (Some token) w
  = Ret false (delivered (authenticated sock addr w)
                 [mkWrite sock (signon w (clock_reads w)) true]).
Proof.
  intros Hf. destruct w as [? ? dbg ? ? hp ? wf ? ? wr lg].
  cbn [wfail wire] in Hf.
  unfold monitor_handshake. rewrite String.eqb_refl.
  destruct dbg; handshake_run; rewrite fn_lookup_insert; handshake_run;
    rewrite Hf; handshake_run; cbn [flat_map app];
    rewrite ?app_nil_r, <- ?(assoc_L (++)); cbn [app]; reflexivity.
Qed.

Lemma monitor_handshake_registered sock addr w :
  wfail w sock (length (wire w)) = false ->
  monitor_handshake false sock addr (Some token) w
  = Ret true (set_connections (connections w ++ [addr]) (greeted sock addr w)).
Proof.
  intros Hf. destruct w as [? ? dbg ? ? hp ? wf ? ? wr lg].
  cbn [wfail wire] in Hf.
  unfold monitor_handshake. rewrite String.eqb_refl.
  destruct dbg;
    do 3 (handshake_run;
          rewrite ?fn_lookup_insert, ?Hf, ?length_app; cbn [length];
          rewrite ?Nat.add_1_r);
    destruct (wf sock (S (length wr))); handshake_run;
    cbn [flat_map app]; rewrite ?app_nil_r, <- ?(assoc_L (++)); cbn [app];
    reflexivity.
Qed.

(** Run on its own: when the token is right and the signon write
    succeeds, [monitor] has written to the new socket the signon message
    and then one enabled snapshot, nothing else, and has appended the
    connection to the registry, whether or not the snapshot write
    failed. *)
Theorem handshake_signon_then_enabled sock addr w :
  wfail w sock (length (wire w)) = false ->
  exists w2 ts1 ts2 err2,
    monitor_handshake false sock addr (Some token) w
      = Ret true (set_connections (connections w ++ [addr]) w2)
    /\ wire w2
       = wire w
         ++ [mkWrite sock
               (SignonMessage ts1 (signon_tree (present w))
                              (signon_sources (present w))) false;
             mkWrite sock
               (ChangeMessage "enabled" ts2 (interval w) (discrete w)
                              (enabled_tree (present w))) err2]
    /\ connections w2 = connections w
    /\ heap w2 addr = mkConnection sock false.
Proof.
  intros Hf. exists (greeted sock addr w).
  exists (Z.quot (wrap64 (clock w (clock_reads w))) 1000).
  exists (Z.quot (wrap64 (clock w (S (clock_reads w)))) 1000).
  exists (wfail w sock (S (length (wire w)))).
  split; [by apply monitor_handshake_registered|].
  unfold greeted, delivered, authenticated, signon, snapshot.
  destruct (debug w); simpl; rewrite <- (assoc_L (++));
    (split; [reflexivity|split; [reflexivity|apply fn_lookup_insert]]).
Qed.

Lemma handshake_signon_then_enabled_witness :
  let w0 := sample_world false [5] [] [idle_sensor "a" [mkEvent "x" true]] in
  exists w2 ts1 ts2 err2,
    monitor_handshake false 7 7 (Some token) w0
      = Ret true (set_connections (connections w0 ++ [7]) w2)
    /\ wire w2
       = wire w0
         ++ [mkWrite 7
               (SignonMessage ts1 (signon_tree (present w0))
                              (signon_sources (present w0))) false;
             mkWrite 7
               (ChangeMessage "enabled" ts2 (interval w0) (discrete w0)
                              (enabled_tree (present w0))) err2]
    /\ connections w2 = connections w0
    /\ heap w2 7 = mkConnection 7 false.
Proof.
  intros w0. apply (handshake_signon_then_enabled 7 7 w0). reflexivity.
Defined.

(** C6 (counterexample). The token is right but every write to socket 7
    fails: the signon write is attempted, no enabled snapshot follows and
    the connection is not registered. *)
Lemma handshake_signon_failure_sends_no_snapshot :
  let w0 := sample_world false [5] [7] [idle_sensor "a" [mkEvent "x" true]] in
  let r := monitor_handshake false 7 7 (Some "463ba1974b06") w0 in
  value_of r = Some false
  /\ wire (world_of r)
     = [mkWrite 7 (SignonMessage 0 {["a" := ["x"]]} {["a" := 1%N]}) true]
  /\ connections (world_of r) = [5].
Proof. vm_compute. done. Qed.

(** ** state with the description of one event *)

Lemma find_event_None d evs : forall j,
  find_event d evs j = None ->
  forall i e, evs !! i = Some e -> desc e <> d.
Proof.
  induction evs as [|e0 evs IH]; intros j H i e Hi; [done|].
  simpl in H. destruct (String.eqb_spec (desc e0) d) as [|Hne]; [done|].
  destruct i as [|i]; simpl in Hi.
  - by injection Hi as <-.
  - by apply (IH _ H i).
Qed.

Lemma find_event_Some d evs : forall j r,
  find_event d evs j = Some r ->
  exists i e, r = j + i /\ evs !! i = Some e /\ desc e = d
    /\ forall i' e', i' < i -> evs !! i' = Some e' -> desc e' <> d.
Proof.
  induction evs as [|e0 evs IH]; intros j r H; [done|].
  simpl in H. destruct (String.eqb_spec (desc e0) d) as [Heq|Hne].
  - injection H as <-. exists 0, e0. repeat split; [lia|done|lia].
  - destruct (IH _ _ H) as (i & e & -> & Hi & He & Hfirst).
    exists (S i), e. repeat split; [lia|done|done|].
    intros [|i'] e' Hlt Hi'; simpl in Hi'.
    + by injection Hi' as <-.
    + apply (Hfirst i'); [lia|done].
Qed.

Lemma state_sensor_None d st dm s :
  d <> "all" -> state_sensor d st dm s = None ->
  forall i e, events s !! i = Some e -> desc e <> d.
Proof.
  intros Hall. unfold state_sensor.
  apply String.eqb_neq in Hall. rewrite Hall.
  destruct (find_event d (events s) 0) eqn:E; [done|].
  intros _. by apply (find_event_None _ _ _ E).
Qed.

Lemma state_sensor_Some d st dm s s' :
  d <> "all" -> state_sensor d st dm s = Some s' ->
  exists i e, events s !! i = Some e /\ desc e = d
    /\ (forall i' e', i' < i -> events s !! i' = Some e' -> desc e' <> d)
    /\ events s' = alter (set_enabled st) i (events s).
Proof.
  intros Hall. unfold state_sensor.
  apply String.eqb_neq in Hall. rewrite Hall.
  destruct (find_event d (events s) 0) as [r|] eqn:E; [|done].
  intros [= <-].
  destruct (find_event_Some _ _ _ _ E) as (i & e & -> & Hi & He & Hfirst).
  by exists i, e.
Qed.

Lemma state_loop_None d st dm ps :
  d <> "all" -> state_loop d st dm ps = None ->
  forall k i e, event_at ps k i = Some e -> desc e <> d.
Proof.
  intros Hall. induction ps as [|s ps IH]; intros H k i e He; [done|].
  simpl in H. destruct (state_sensor d st dm s) eqn:Es; [done|].
  destruct (state_loop d st dm ps) eqn:El; [done|].
  destruct k as [|k]; unfold event_at in He; simpl in He.
  - by apply (state_sensor_None _ _ _ _ Hall Es i).
  - by apply (IH eq_refl k i).
Qed.

Lemma state_loop_Some d st dm ps : forall ps',
  d <> "all" -> state_loop d st dm ps = Some ps' ->
  exists k i e,
    event_at ps k i = Some e /\ desc e = d
    /\ (forall k' i' e', scanned_before k' i' k i ->
          event_at ps k' i' = Some e' -> desc e' <> d)
    /\ event_at ps' k i = Some (mkEvent d st)
    /\ (forall k' i', (k', i') <> (k, i) ->
          event_at ps' k' i' = event_at ps k' i').
Proof.
  induction ps as [|s ps IH]; intros ps' Hall H; [done|].
  simpl in H. destruct (state_sensor d st dm s) as [s'|] eqn:Es.
  - injection H as <-.
    destruct (state_sensor_Some _ _ _ _ _ Hall Es)
      as (i & e & Hi & He & Hfirst & Hev).
    exists 0, i, e. unfold event_at. simpl. repeat split; [done|done|..].
    + intros k' i' e' [Hlt|[-> Hlt]] He'; [lia|].
      by apply (Hfirst i').
    + rewrite Hev, list_lookup_alter_eq, Hi. simpl.
      unfold set_enabled. by rewrite He.
    + intros [|k'] i' Hne; simpl; [|done].
      rewrite Hev. apply list_lookup_alter_ne. congruence.
  - destruct (state_loop d st dm ps) as [ps0|] eqn:El; [|done].
    injection H as <-.
    destruct (IH _ Hall eq_refl) as (k & i & e & Hi & He & Hfirst & Hnew & Hfr).
    exists (S k), i, e. repeat split; [done|done|..|done|].
    + intros [|k'] i' e' Hb He'.
      * by apply (state_sensor_None _ _ _ _ Hall Es i').
      * apply (Hfirst k' i'); [|done].
        destruct Hb as [?|[? ?]]; [left; lia|right; split; [lia|done]].
    + intros [|k'] i' Hne; [done|].
      apply (Hfr k' i'). congruence.
Qed.

(** C10. For a description other than all that some event carries,
    [state] returns, and there is a first position in scanning order
    whose event carries the description: that event becomes the given
    state, every event at any other position of any sensor is as before,
    and so are the interval and the discrete mode. *)
Theorem state_assigns_first_match_only d st w :
  d <> "all" ->
  (exists k i e, event_at (present w) k i = Some e /\ desc e = d) ->
  exists k i e w',
    state d st w = Ret tt w'
    /\ event_at (present w) k i = Some e /\ desc e = d
    /\ (forall k' i' e', scanned_before k' i' k i ->
          event_at (present w) k' i' = Some e' -> desc e' <> d)
    /\ event_at (present w') k i = Some (mkEvent d st)
    /\ (forall k' i', (k', i') <> (k, i) ->
          event_at (present w') k' i' = event_at (present w) k' i')
    /\ interval w' = interval w /\ discrete w' = discrete w.
Proof.
  intros Hall (k0 & i0 & e0 & He0 & Hd0). unfold state.
  destruct (state_loop d st (discrete w) (present w)) as [ps'|] eqn:El.
  - destruct (state_loop_Some _ _ _ _ _ Hall El)
      as (k & i & e & Hi & He & Hfirst & Hnew & Hfr).
    by exists k, i, e, (set_present ps' w).
  - by destruct (state_loop_None _ _ _ _ Hall El _ _ _ He0).
Qed.

Lemma state_assigns_first_match_only_witness :
  let w := sample_world false [5] []
             [idle_sensor "a" [mkEvent "x" false; mkEvent "y" false];
              idle_sensor "b" [mkEvent "y" false]] in
  exists k i e w',
    state "y" true w = Ret tt w'
    /\ event_at (present w) k i = Some e /\ desc e = "y"
    /\ (forall k' i' e', scanned_before k' i' k i ->
          event_at (present w) k' i' = Some e' -> desc e' <> "y")
    /\ event_at (present w') k i = Some (mkEvent "y" true)
    /\ (forall k' i', (k', i') <> (k, i) ->
          event_at (present w') k' i' = event_at (present w) k' i')
    /\ interval w' = interval w /\ discrete w' = discrete w.
Proof.
  intros w. apply (state_assigns_first_match_only "y" true w).
  - discriminate.
  - exists 1, 0, (mkEvent "y" false). split; reflexivity.
Defined.

(** On that world the first event called y is the second event of the
    first sensor; the event called y of the second sensor stays off. *)
Example state_first_match_example :
  let w := sample_world false [5] []
             [idle_sensor "a" [mkEvent "x" false; mkEvent "y" false];
              idle_sensor "b" [mkEvent "y" false]] in
  events <$> present (world_of (state "y" true w))
  = [[mkEvent "x" false; mkEvent "y" true]; [mkEvent "y" false]].
Proof. reflexivity. Qed.

(** * Further properties of the registry and the message loop *)

(** ** remove on a registered socket *)

Lemma remove_loop_present c w : forall idx,
  Forall (fun i => i < length (connections w)) idx ->
  (exists i p, i ∈ idx /\ connections w !! i = Some p
               /\ socket (heap w p) = c) ->
  exists w1, remove_loop c idx w = Ret tt w1.
Proof.
  induction idx as [|i idx IH]; intros Hidx (j & q & Hj & Hq & Hc).
  - by apply elem_of_nil in Hj.
  - inversion Hidx as [|? ? Hi Hrest]; subst. simpl.
    destruct (lookup_lt_is_Some_2 _ _ Hi) as [p Hp]. rewrite Hp.
    destruct (last_conn_is_Some _ _ Hi) as [l ->].
    destruct (Nat.eqb_spec (socket (heap w p)) (socket (heap w q)))
      as [_|Hne]; [by eexists|].
    apply IH; [done|]. exists j, q. split; [|done].
    apply elem_of_cons in Hj as [->|Hj]; [|done].
    rewrite Hp in Hq. injection Hq as ->. done.
Qed.

(** Overwriting slot [i] with the last entry and dropping the last slot
    takes exactly the entry of slot [i] out of the list. *)
Lemma swap_remove_perm (conns : list nat) (i p l : nat) :
  conns !! i = Some p ->
  conns !! (length conns - 1) = Some l ->
  conns ≡ₚ p :: take (length conns - 1) (<[i := l]> conns).
Proof.
  intros Hp Hl.
  destruct (decide (i = length conns - 1)) as [->|Hne].
  - rewrite Hl in Hp. injection Hp as ->.
    rewrite list_insert_id by done.
    rewrite <- (take_drop_middle conns _ p Hl) at 1.
    rewrite (drop_ge conns) by lia.
    by rewrite <- Permutation_middle, app_nil_r.
  - assert (i < length conns - 1) as Hlt.
    { apply lookup_lt_Some in Hp. lia. }
    rewrite <- (take_drop_middle conns _ l Hl) at 1.
    rewrite (drop_ge conns) by lia.
    assert (take (length conns - 1) conns !! i = Some p) as Hp'.
    { by rewrite lookup_take_lt. }
    rewrite take_insert_lt by done.
    rewrite <- (take_drop_middle _ _ _ Hp') at 1.
    rewrite insert_take_drop by (rewrite length_take; lia).
    rewrite <- !Permutation_middle, app_nil_r. apply perm_swap.
Qed.

Lemma remove_present_perm c w :
  c ∈ registry_sockets w ->
  exists p w1,
    remove c w = Ret tt w1 /\ socket (heap w p) = c
    /\ p ∈ connections w
    /\ connections w ≡ₚ p :: connections w1
    /\ w1 = set_connections (connections w1) w.
Proof.
  intros Hin. apply list_elem_of_fmap in Hin as (q & -> & Hq).
  apply list_elem_of_lookup in Hq as [j Hj].
  destruct (remove_loop_present (socket (heap w q)) w
              (seq 0 (length (connections w)))) as [w1 H1].
  - apply list.Forall_forall. intros i Hi. apply elem_of_seq in Hi. lia.
  - exists j, q. split; [|done]. apply elem_of_seq.
    apply lookup_lt_Some in Hj. lia.
  - destruct (remove_loop_found _ _ _ _ H1) as (i & p & l & Hp & Hc & Hl & ->).
    exists p. eexists. split; [exact H1|]. split; [done|].
    split; [by apply list_elem_of_lookup_2 in Hp|].
    split; [by apply swap_remove_perm|done].
Qed.

(** X1. [remove] succeeds on every socket some registered connection
    holds, and takes exactly one connection with that socket out of the
    registry: the registry before is, up to order, that connection
    followed by the registry after. Nothing else in the world changes. *)
Theorem remove_takes_one_connection_out c w :
  c ∈ registry_sockets w ->
  exists p w1,
    remove c w = Ret tt w1 /\ socket (heap w p) = c
    /\ connections w ≡ₚ p :: connections w1
    /\ w1 = set_connections (connections w1) w.
Proof.
  intros Hin.
  destruct (remove_present_perm c w Hin) as (p & w1 & H1 & Hc & _ & Hperm & Hw).
  by exists p, w1.
Qed.

Lemma remove_takes_one_connection_out_witness :
  let w := sample_world false [5; 6; 7] [] [] in
  exists p w1,
    remove 5 w = Ret tt w1 /\ socket (heap w p) = 5
    /\ connections w ≡ₚ p :: connections w1
    /\ w1 = set_connections (connections w1) w.
Proof.
  intros w. apply (remove_takes_one_connection_out 5 w).
  apply (bool_decide_unpack _). vm_compute. reflexivity.
Defined.

(** The registry after removing the first of three connections: the last
    one has moved into the freed slot, so the order is not kept. *)
Example remove_moves_last_into_slot :
  connections (world_of (remove 5 (sample_world false [5; 6; 7] [] [])))
  = [7; 6].
Proof. reflexivity. Qed.

(** ** The message loop, case by case *)

Lemma registry_sockets_recv_logged msg w :
  registry_sockets (recv_logged msg w) = registry_sockets w.
Proof. unfold recv_logged. by destruct (debug w). Qed.

Lemma monitor_step_read_error addr w :
  monitor_step addr None w =
    let w0 := if debug w then set_log (log w ++ [LogFailedReading]) w else w in
    bind (remove (socket (heap w addr))) (fun _ => ret false) w0.
Proof.
  unfold monitor_step. unfold bind at 1. unfold debugln, println, modify.
  destruct (debug w); reflexivity.
Qed.

Lemma monitor_step_stopped addr msg w (b : bool) :
  field "Op" msg = (if b then "stop" else "start") ->
  monitor_step addr (Some msg) w
  = Ret true (set_stopped addr b (recv_logged msg w)).
Proof.
  intros Hop. unfold monitor_step. rewrite Hop.
  unfold bind, debugln, println, modify, ret, recv_logged.
  destruct b; destruct (debug w); reflexivity.
Qed.

Lemma monitor_step_update addr msg w :
  field "Op" msg = "update" ->
  monitor_step addr (Some msg) w
  = bind (toggle (field "Event" msg) (field "State" msg))
         (fun _ => ret true) (recv_logged msg w).
Proof.
  intros Hop. unfold monitor_step. rewrite Hop. simpl.
  unfold bind at 1. unfold debugln, println, modify, recv_logged.
  destruct (debug w); reflexivity.
Qed.

(** X2. When reading from a registered connection fails, the message loop
    ends without a panic and the connection is taken out of the registry:
    provided no two registered connections share a socket, the registry
    before is, up to order, this connection followed by the registry
    after. Nothing is written to any socket. *)
Theorem read_error_unregisters_connection addr w :
  addr ∈ connections w ->
  NoDup (registry_sockets w) ->
  exists w1,
    monitor_step addr None w = Ret false w1
    /\ connections w ≡ₚ addr :: connections w1
    /\ wire w1 = wire w /\ heap w1 = heap w.
Proof.
  intros Hin Hnd. rewrite monitor_step_read_error. cbv zeta.
  set (w0 := if debug w then set_log (log w ++ [LogFailedReading]) w
             else w).
  assert (connections w0 = connections w /\ heap w0 = heap w
          /\ wire w0 = wire w) as (Hc0 & Hh0 & Hw0).
  { subst w0. by destruct (debug w). }
  destruct (remove_present_perm (socket (heap w addr)) w0)
    as (p & w1 & H1 & Hs & Hp & Hperm & Hw1).
  { unfold registry_sockets. rewrite Hc0, Hh0.
    apply list_elem_of_fmap. by exists addr. }
  exists w1. unfold bind. rewrite H1. split; [reflexivity|].
  rewrite Hc0, Hh0 in *.
  assert (p = addr) as ->.
  { apply list_elem_of_lookup in Hp as [i Hi].
    apply list_elem_of_lookup in Hin as [j Hj].
    assert (i = j) as ->.
    { apply (NoDup_lookup _ i j (socket (heap w addr)) Hnd);
        unfold registry_sockets; rewrite list_lookup_fmap.
      - rewrite Hi. simpl. by rewrite Hs.
      - by rewrite Hj. }
    congruence. }
  split; [done|]. rewrite Hw1. simpl. by rewrite Hw0, Hh0.
Qed.

Lemma read_error_unregisters_connection_witness :
  let w := sample_world true [5; 6; 7] [] [] in
  exists w1,
    monitor_step 6 None w = Ret false w1
    /\ connections w ≡ₚ 6 :: connections w1
    /\ wire w1 = wire w /\ heap w1 = heap w.
Proof.
  intros w. apply (read_error_unregisters_connection 6 w).
  - apply (bool_decide_unpack _). vm_compute. reflexivity.
  - apply (bool_decide_unpack _). vm_compute. reflexivity.
Defined.

(** X3. A client that does not present the token gets nothing: when the
    upgrade fails, the first read fails or the first message differs from
    the token, [monitor] returns before the read loop, writes to no
    socket and leaves the registry as it was. *)
Theorem handshake_rejects_without_token upgrade_err sock addr first w :
  upgrade_err = true \/ first <> Some token ->
  let r := monitor_handshake upgrade_err sock addr first w in
  value_of r = Some false
  /\ wire (world_of r) = wire w
  /\ connections (world_of r) = connections w.
Proof.
  intros H. unfold monitor_handshake.
  destruct upgrade_err.
  - unfold bind, debugln, println, modify, ret. by destruct (debug w).
  - destruct H as [?|H]; [done|].
    destruct first as [message|].
    + destruct (String.eqb_spec message token) as [->|_]; [done|].
      cbn [negb]. unfold bind, debugln, println, modify, ret.
      cbn [debug set_heap]. by destruct (debug w).
    + unfold bind, debugln, println, modify, ret.
      cbn [debug set_heap]. by destruct (debug w).
Qed.

Lemma handshake_rejects_without_token_witness :
  let w := sample_world true [5] [] [idle_sensor "a" [mkEvent "x" true]] in
  let r := monitor_handshake false 7 7 (Some "463ba1974b0") w in
  value_of r = Some false
  /\ wire (world_of r) = wire w
  /\ connections (world_of r) = connections w.
Proof.
  intros w. apply (handshake_rejects_without_token false 7 7 _ w).
  right. discriminate.
Defined.

(** ** stop and start *)

Lemma filter_fmap_heap (h : nat -> Connection) (ps : list nat) :
  filter (fun c => stopped c = false) (h <$> ps)
  = h <$> filter (fun p => stopped (h p) = false) ps.
Proof.
  induction ps as [|p ps IH]; [done|]. rewrite fmap_cons.
  destruct (stopped (h p)) eqn:E.
  - rewrite !filter_cons_False by congruence. exact IH.
  - rewrite !filter_cons_True by done. rewrite fmap_cons. by rewrite IH.
Qed.

(** The sockets a data batch is written to, in order. *)
Lemma broadcastData_sockets eps w :
  exists ds,
    broadcastData eps w = Ret tt (delivered w ds)
    /\ to <$> ds = (fun p => socket (heap w p)) <$> data_targets w
    /\ Forall (fun d => payload d = DataMessage eps) ds.
Proof.
  eexists. split; [|split].
  - unfold broadcastData, bind at 1, get at 1. apply (broadcastData_range _ _ _ 0).
  - rewrite deliveries_to, filter_fmap_heap. unfold data_targets.
    by rewrite <- list_fmap_compose.
  - generalize (filter (fun c => stopped c = false) (heap w <$> connections w)).
    generalize (length (wire w)). generalize 0.
    intros k n l. revert k n.
    induction l as [|c l IH]; intros k n; simpl; constructor; [done|apply IH].
Qed.

Lemma broadcastLabel_sockets ts label w :
  exists ds,
    broadcastLabel ts label w = Ret tt (delivered w ds)
    /\ to <$> ds = registry_sockets w.
Proof.
  eexists. split.
  - unfold broadcastLabel, bind at 1, get at 1.
    apply (broadcastLabel_range _ _ _ _ 0).
  - rewrite deliveries_to. unfold registry_sockets.
    by rewrite <- list_fmap_compose.
Qed.

Lemma data_targets_set_stopped addr (b : bool) w :
  data_targets (set_stopped addr b w)
  = filter (fun p => (if decide (p = addr) then b else stopped (heap w p))
                     = false) (connections w).
Proof.
  unfold data_targets, set_stopped. cbn [heap connections set_heap].
  apply list_filter_iff. intros p. unfold insert, fn_insert.
  destruct (decide (addr = p)) as [->|Hne].
  - by rewrite decide_True by done.
  - by rewrite decide_False by done.
Qed.

(** X4. The stop message pauses data for the sender only: it writes
    nothing, and afterwards a data batch goes to the sockets of exactly
    the connections that were receiving data before, this one left out,
    while a label still goes to every registered socket. *)
Theorem stop_pauses_data_for_sender_only addr msg w :
  field "Op" msg = "stop" ->
  exists w1,
    monitor_step addr (Some msg) w = Ret true w1
    /\ wire w1 = wire w
    /\ (forall eps, exists ds,
          broadcastData eps w1 = Ret tt (delivered w1 ds)
          /\ to <$> ds
             = (fun p => socket (heap w p))
                 <$> filter (fun p => p <> addr) (data_targets w))
    /\ (forall ts label, exists ds,
          broadcastLabel ts label w1 = Ret tt (delivered w1 ds)
          /\ to <$> ds = registry_sockets w).
Proof.
  intros Hop. eexists. split; [apply (monitor_step_stopped _ _ _ true Hop)|].
  assert (forall p, socket (heap (set_stopped addr true (recv_logged msg w)) p)
                    = socket (heap w p)) as Hsock.
  { intros p. unfold set_stopped, recv_logged. cbn [heap set_heap].
    unfold insert, fn_insert.
    destruct (decide (addr = p)) as [->|]; by destruct (debug w). }
  split; [unfold recv_logged; by destruct (debug w)|]. split.
  - intros eps. destruct (broadcastData_sockets eps
      (set_stopped addr true (recv_logged msg w))) as (ds & Hrun & Hto & _).
    exists ds. split; [done|]. rewrite Hto, data_targets_set_stopped.
    unfold data_targets.
    replace (connections (recv_logged msg w)) with (connections w)
      by (unfold recv_logged; by destruct (debug w)).
    rewrite list_filter_filter.
    replace (heap (recv_logged msg w)) with (heap w)
      by (unfold recv_logged; by destruct (debug w)).
    erewrite (list_fmap_ext _ (fun p => socket (heap w p))); [|by intros].
    f_equal. apply list_filter_iff. intros p.
    destruct (decide (p = addr)); intuition congruence.
  - intros ts label. destruct (broadcastLabel_sockets ts label
      (set_stopped addr true (recv_logged msg w))) as (ds & Hrun & Hto).
    exists ds. split; [done|]. rewrite Hto. unfold registry_sockets.
    replace (connections (set_stopped addr true (recv_logged msg w)))
      with (connections w)
      by (unfold recv_logged; by destruct (debug w)).
    by apply list_fmap_ext.
Qed.

Lemma stop_pauses_data_for_sender_only_witness :
  let w := sample_world false [5; 6] [] [] in
  exists w1,
    monitor_step 5 (Some (control "stop" "Value" "")) w = Ret true w1
    /\ wire w1 = wire w
    /\ (forall eps, exists ds,
          broadcastData eps w1 = Ret tt (delivered w1 ds)
          /\ to <$> ds
             = (fun p => socket (heap w p))
                 <$> filter (fun p => p <> 5) (data_targets w))
    /\ (forall ts label, exists ds,
          broadcastLabel ts label w1 = Ret tt (delivered w1 ds)
          /\ to <$> ds = registry_sockets w).
Proof.
  intros w.
  apply (stop_pauses_data_for_sender_only 5 (control "stop" "Value" "") w).
  reflexivity.
Defined.

Lemma heap_set_stopped a (b : bool) w q :
  heap (set_stopped a b w) q
  = if decide (a = q) then mkConnection (socket (heap w a)) b else heap w q.
Proof. reflexivity. Qed.

Lemma connections_recv_logged msg w :
  connections (recv_logged msg w) = connections w.
Proof. unfold recv_logged. by destruct (debug w). Qed.

Lemma wire_recv_logged msg w : wire (recv_logged msg w) = wire w.
Proof. unfold recv_logged. by destruct (debug w). Qed.

Lemma heap_recv_logged msg w : heap (recv_logged msg w) = heap w.
Proof. unfold recv_logged. by destruct (debug w). Qed.

(** X5. stop followed by start is a round trip for a connection that was
    receiving data: every connection object is as before, so the same
    connections receive data batches again; neither message writes to a
    socket or touches the registry. *)
Theorem stop_then_start_restores_delivery addr m1 m2 w :
  field "Op" m1 = "stop" -> field "Op" m2 = "start" ->
  stopped (heap w addr) = false ->
  exists w1 w2,
    monitor_step addr (Some m1) w = Ret true w1
    /\ monitor_step addr (Some m2) w1 = Ret true w2
    /\ (forall q, heap w2 q = heap w q)
    /\ data_targets w2 = data_targets w
    /\ wire w2 = wire w /\ connections w2 = connections w.
Proof.
  intros H1 H2 Hs. eexists. eexists.
  split; [apply (monitor_step_stopped _ _ _ true H1)|].
  split; [apply (monitor_step_stopped _ _ _ false H2)|].
  assert (forall q,
    heap (set_stopped addr false
            (recv_logged m2 (set_stopped addr true (recv_logged m1 w)))) q
    = heap w q) as Hheap.
  { intros q. rewrite !heap_set_stopped, !heap_recv_logged.
    rewrite !heap_set_stopped, !heap_recv_logged.
    destruct (decide (addr = q)) as [->|]; [|done].
    rewrite decide_True by done. cbn [socket].
    destruct (heap w q) as [so st]. simpl in Hs. by subst st. }
  split; [exact Hheap|]. split.
  - unfold data_targets. cbn [connections set_stopped set_heap].
    rewrite !connections_recv_logged. cbn [connections set_stopped set_heap].
    rewrite connections_recv_logged.
    apply list_filter_iff. intros p. by rewrite Hheap.
  - cbn [wire connections set_stopped set_heap].
    rewrite wire_recv_logged, connections_recv_logged.
    cbn [wire connections set_stopped set_heap].
    by rewrite wire_recv_logged, connections_recv_logged.
Qed.

Lemma stop_then_start_restores_delivery_witness :
  let w := sample_world true [5; 6] [] [] in
  exists w1 w2,
    monitor_step 5 (Some (control "stop" "Value" "")) w = Ret true w1
    /\ monitor_step 5 (Some (control "start" "Value" "")) w1 = Ret true w2
    /\ (forall q, heap w2 q = heap w q)
    /\ data_targets w2 = data_targets w
    /\ wire w2 = wire w /\ connections w2 = connections w.
Proof.
  intros w.
  apply (stop_then_start_restores_delivery 5
           (control "stop" "Value" "") (control "start" "Value" "") w);
    reflexivity.
Defined.

(** ** What a control message leaves alone *)

Lemma state_world d st w :
  exists ps, world_of (state d st w) = set_present ps w.
Proof.
  unfold state. destruct (state_loop d st (discrete w) (present w)) as [ps|].
  - by exists ps.
  - exists (present w). by destruct w.
Qed.

Lemma change_all_run w :
  change_all w
  = Ret tt (set_clock_reads (clock_reads w + length (connections w))
              (delivered w
                 (deliveries (wfail w) (length (wire w)) (snapshot w)
                    (clock_reads w) (heap w <$> connections w)))).
Proof. unfold change_all, bind at 1, get at 1. apply change_all_range. Qed.

Lemma toggle_frame d val w :
  connections (world_of (toggle d val w)) = connections w
  /\ heap (world_of (toggle d val w)) = heap w
  /\ interval (world_of (toggle d val w)) = interval w
  /\ discrete (world_of (toggle d val w)) = discrete w
  /\ debug (world_of (toggle d val w)) = debug w
  /\ coalescing (world_of (toggle d val w)) = coalescing w.
Proof.
  unfold toggle, bind.
  assert (forall st,
    let r := match state d st w with
             | Ret _ w' => change_all w'
             | Panic r w' => Panic r w'
             end in
    connections (world_of r) = connections w /\ heap (world_of r) = heap w
    /\ interval (world_of r) = interval w
    /\ discrete (world_of r) = discrete w
    /\ debug (world_of r) = debug w
    /\ coalescing (world_of r) = coalescing w) as Hst.
  { intros st. destruct (state_world d st w) as [ps Hps].
    destruct (state d st w) as [[] w'|r w']; simpl in Hps; subst w'.
    - rewrite change_all_run. done.
    - done. }
  destruct (String.eqb val "on"); [apply Hst|].
  destruct (String.eqb val "off"); [apply Hst|]. done.
Qed.

Lemma monitor_step_averaging addr msg w :
  field "Op" msg = "averaging" ->
  monitor_step addr (Some msg) w
  = let w1 := set_discrete (String.eqb (field "Value" msg) "false")
                           (recv_logged msg w) in
    let w2 := set_present (Enable (discrete w1) <$> present w1) w1 in
    bind change_all (fun _ => ret true) w2.
Proof.
  intros Hop. unfold monitor_step. rewrite Hop. simpl.
  unfold bind at 1. unfold debugln, println, modify, recv_logged, Activate.
  destruct (debug w); reflexivity.
Qed.

Lemma monitor_step_unknown addr msg w :
  known_op (field "Op" msg) = false ->
  monitor_step addr (Some msg) w
  = Ret true (set_log (log (recv_logged msg w) ++ [LogUnknownMessage msg])
                      (recv_logged msg w)).
Proof.
  unfold known_op. intros Hop.
  repeat (apply orb_false_elim in Hop as [Hop ?]).
  unfold monitor_step.
  repeat match goal with H : String.eqb _ _ = false |- _ =>
           rewrite H; clear H end.
  unfold bind, debugln, println, modify, ret, recv_logged.
  by destruct (debug w).
Qed.

(** X6. Whatever message [ReadJSON] decodes, the message loop leaves the
    registry, every other connection's object, this connection's socket,
    the debug flag and the coalescing window as they were, also when it
    panics: by a message one viewer cannot pause, resume or unregister
    another. (A frame that cannot be decoded is a read error: it removes
    the sender, see X2.) *)
Theorem control_message_leaves_other_connections addr msg w :
  let r := monitor_step addr (Some msg) w in
  connections (world_of r) = connections w
  /\ (forall q, q <> addr -> heap (world_of r) q = heap w q)
  /\ socket (heap (world_of r) addr) = socket (heap w addr)
  /\ debug (world_of r) = debug w
  /\ coalescing (world_of r) = coalescing w.
Proof.
  cbv zeta.
  assert (connections (recv_logged msg w) = connections w
          /\ heap (recv_logged msg w) = heap w
          /\ debug (recv_logged msg w) = debug w
          /\ coalescing (recv_logged msg w) = coalescing w)
    as (Hc & Hh & Hd & Hw).
  { unfold recv_logged. destruct (debug w) eqn:E; simpl; rewrite ?E; done. }
  destruct (String.eqb_spec (field "Op" msg) "update") as [Hop|N1].
  { rewrite (monitor_step_update _ _ _ Hop). unfold bind.
    destruct (toggle_frame (field "Event" msg) (field "State" msg)
                (recv_logged msg w)) as (Hc' & Hh' & _ & _ & Hd' & Hw').
    destruct (toggle _ _ _) as [[] w'|r w']; simpl in *;
      rewrite Hc', Hh', Hd', Hw', Hc, Hh, Hd, Hw; done. }
  destruct (String.eqb_spec (field "Op" msg) "stop") as [Hop|N2].
  { rewrite (monitor_step_stopped _ _ _ true Hop). unfold set_stopped.
    simpl. rewrite Hc, Hh, Hd, Hw. split; [done|]. split; [|split; [|done]].
    - intros q Hq. unfold insert, fn_insert. by rewrite decide_False.
    - by rewrite fn_lookup_insert. }
  destruct (String.eqb_spec (field "Op" msg) "start") as [Hop|N3].
  { rewrite (monitor_step_stopped _ _ _ false Hop). unfold set_stopped.
    simpl. rewrite Hc, Hh, Hd, Hw. split; [done|]. split; [|split; [|done]].
    - intros q Hq. unfold insert, fn_insert. by rewrite decide_False.
    - by rewrite fn_lookup_insert. }
  destruct (String.eqb_spec (field "Op" msg) "averaging") as [Hop|N4].
  { rewrite (monitor_step_averaging _ _ _ Hop). cbv zeta. unfold bind.
    rewrite change_all_run. simpl. by rewrite Hc, Hh, Hd, Hw. }
  destruct (String.eqb_spec (field "Op" msg) "interval") as [Hop|N5].
  { rewrite (monitor_step_interval _ _ _ Hop). cbv zeta.
    destruct (debug w) eqn:E; destruct (snd (Atoi (field "Value" msg)));
      simpl; rewrite ?E; done. }
  rewrite monitor_step_unknown.
  - simpl. by rewrite Hc, Hh, Hd, Hw.
  - unfold known_op.
    apply String.eqb_neq in N1, N2, N3, N4, N5.
    by rewrite N1, N2, N3, N4, N5.
Qed.

(** ** state: unknown events, repeated assignments *)

Lemma find_event_no_match d evs : forall j,
  (forall i e, evs !! i = Some e -> desc e <> d) ->
  find_event d evs j = None.
Proof.
  induction evs as [|e0 evs IH]; intros j H; [done|]. simpl.
  destruct (String.eqb_spec (desc e0) d) as [Heq|_].
  - by destruct (H 0 e0).
  - apply IH. intros i e Hi. by apply (H (S i)).
Qed.

Lemma state_loop_no_match d st dm ps :
  d <> "all" ->
  (forall k i e, event_at ps k i = Some e -> desc e <> d) ->
  state_loop d st dm ps = None.
Proof.
  intros Hall. apply String.eqb_neq in Hall.
  induction ps as [|s ps IH]; intros H; [done|]. simpl.
  unfold state_sensor. rewrite Hall.
  rewrite find_event_no_match by (intros i e; apply (H 0 i e)).
  rewrite IH; [done|]. intros k i e. apply (H (S k) i e).
Qed.

(** X7. An update message naming a description that no event carries
    (and that is not all) makes the message loop panic with "event '...'
    not found": no event is changed and no snapshot is sent. *)
Theorem update_of_unknown_event_panics addr msg w :
  field "Op" msg = "update" ->
  field "State" msg = "on" \/ field "State" msg = "off" ->
  field "Event" msg <> "all" ->
  (forall k i e, event_at (present w) k i = Some e ->
                 desc e <> field "Event" msg) ->
  monitor_step addr (Some msg) w
  = Panic ("event '" +:+ field "Event" msg +:+ "' not found")
          (recv_logged msg w).
Proof.
  intros Hop Hst Hall Hno. rewrite (monitor_step_update _ _ _ Hop).
  assert (forall st, state (field "Event" msg) st (recv_logged msg w)
            = Panic ("event '" +:+ field "Event" msg +:+ "' not found")
                    (recv_logged msg w)) as Hpanic.
  { intros st. unfold state. rewrite state_loop_no_match; [done|done|].
    unfold recv_logged. by destruct (debug w). }
  unfold bind, toggle, bind.
  destruct Hst as [-> | ->]; simpl; by rewrite Hpanic.
Qed.

Lemma update_of_unknown_event_panics_witness :
  let w := sample_world false [5] [] [idle_sensor "a" [mkEvent "x" true]] in
  let msg := <["State" := "on"]> (control "update" "Event" "y") in
  monitor_step 5 (Some msg) w = Panic "event 'y' not found" w.
Proof.
  intros w msg. apply (update_of_unknown_event_panics 5 msg w).
  - reflexivity.
  - left. reflexivity.
  - discriminate.
  - intros [|[|k]] [|[|i]] e; vm_compute; intros [= <-]; discriminate.
Defined.

Lemma find_event_alter d f evs i : forall j,
  (forall e, desc (f e) = desc e) ->
  find_event d (alter f i evs) j = find_event d evs j.
Proof.
  revert i. induction evs as [|e0 evs IH]; intros i j Hf; [done|].
  destruct i as [|i].
  - change (alter f 0 (e0 :: evs)) with (f e0 :: evs). simpl.
    by rewrite Hf.
  - change (alter f (S i) (e0 :: evs)) with (e0 :: alter f i evs). simpl.
    by rewrite IH.
Qed.

Lemma find_event_zero_lookup d evs i :
  find_event d evs 0 = Some i ->
  exists e, evs !! i = Some e /\ desc e = d.
Proof.
  intros H. destruct (find_event_Some _ _ _ _ H) as (i' & e & -> & Hi & He & _).
  by exists e.
Qed.

(** Assigning twice through [state] is assigning the second value. *)
Lemma state_loop_twice d a b dm dm' dm'' ps : forall ps1,
  d <> "all" ->
  state_loop d a dm ps = Some ps1 ->
  exists ps2 ps3,
    state_loop d b dm' ps1 = Some ps2
    /\ state_loop d b dm'' ps = Some ps3
    /\ events <$> ps2 = events <$> ps3.
Proof.
  intros ps1 Hall. apply String.eqb_neq in Hall. revert ps1.
  induction ps as [|s ps IH]; intros ps1 H; [done|]. simpl in H.
  unfold state_sensor in H. rewrite Hall in H.
  destruct (find_event d (events s) 0) as [i|] eqn:E.
  - injection H as <-. simpl. unfold state_sensor. rewrite Hall. simpl.
    rewrite find_event_alter by done. rewrite E.
    eexists. eexists. split; [reflexivity|]. split; [reflexivity|]. simpl.
    f_equal. rewrite list_alter_alter_eq. by apply list_alter_ext.
  - destruct (state_loop d a dm ps) as [ps0|] eqn:El; [|done].
    injection H as <-.
    destruct (IH _ eq_refl) as (ps2 & ps3 & H2 & H3 & Heq).
    simpl. unfold state_sensor. rewrite Hall, E, H2, H3.
    eexists. eexists. split; [reflexivity|]. split; [reflexivity|].
    rewrite !fmap_cons. by rewrite Heq.
Qed.

(** Assigning the value every matching event already has changes no
    event. *)
Lemma state_loop_same_value d b dm ps : forall ps3,
  d <> "all" ->
  (forall k i e, event_at ps k i = Some e -> desc e = d -> enabled e = b) ->
  state_loop d b dm ps = Some ps3 ->
  events <$> ps3 = events <$> ps.
Proof.
  intros ps3 Hall. apply String.eqb_neq in Hall. revert ps3.
  induction ps as [|s ps IH]; intros ps3 Hb H; [done|]. simpl in H.
  unfold state_sensor in H. rewrite Hall in H.
  destruct (find_event d (events s) 0) as [i|] eqn:E.
  - injection H as <-. simpl. f_equal.
    destruct (find_event_zero_lookup _ _ _ E) as (e & Hi & He).
    apply list_eq. intros j. destruct (decide (i = j)) as [<-|Hne].
    + rewrite list_lookup_alter_eq, Hi. simpl. f_equal.
      specialize (Hb 0 i e Hi He). destruct e as [de en]. simpl in *.
      by subst en.
    + by rewrite list_lookup_alter_ne.
  - destruct (state_loop d b dm ps) as [ps0|] eqn:El; [|done].
    injection H as <-. simpl. f_equal. apply IH; [|done].
    intros k i e. apply (Hb (S k) i e).
Qed.

(** X8. Two assignments to the same description through [state] leave
    the events as the second one alone would: the last value wins, and
    repeating an assignment changes no event. *)
Theorem state_last_assignment_wins d a b w w1 :
  d <> "all" ->
  state d a w = Ret tt w1 ->
  exists w2 w3,
    state d b w1 = Ret tt w2
    /\ state d b w = Ret tt w3
    /\ events <$> present w2 = events <$> present w3.
Proof.
  intros Hall H1. unfold state in *.
  destruct (state_loop d a (discrete w) (present w)) as [ps1|] eqn:E1;
    [|done].
  injection H1 as <-. cbn [present discrete set_present].
  destruct (state_loop_twice d a b (discrete w) (discrete w) (discrete w)
              (present w) ps1 Hall E1) as (ps2 & ps3 & H2 & H3 & Heq).
  rewrite H2, H3. by eexists; eexists.
Qed.

Lemma state_last_assignment_wins_witness :
  let w := sample_world false [] []
             [idle_sensor "a" [mkEvent "x" true; mkEvent "y" true]] in
  exists w2 w3,
    state "y" true (world_of (state "y" false w)) = Ret tt w2
    /\ state "y" true w = Ret tt w3
    /\ events <$> present w2 = events <$> present w3.
Proof.
  intros w.
  apply (state_last_assignment_wins "y" false true w
           (world_of (state "y" false w))).
  - discriminate.
  - reflexivity.
Defined.

(** X9. Switching an event off and on again (or on and off again)
    through [state] restores every event: when each event carrying the
    description has the value [b], assigning any value and then [b]
    leaves all events of all sensors as they were. *)
Theorem state_round_trip_restores_events d a b w w1 :
  d <> "all" ->
  (forall k i e, event_at (present w) k i = Some e -> desc e = d ->
                 enabled e = b) ->
  state d a w = Ret tt w1 ->
  exists w2,
    state d b w1 = Ret tt w2
    /\ events <$> present w2 = events <$> present w.
Proof.
  intros Hall Hb H1. unfold state in *.
  destruct (state_loop d a (discrete w) (present w)) as [ps1|] eqn:E1;
    [|done].
  injection H1 as <-. cbn [present discrete set_present].
  destruct (state_loop_twice d a b (discrete w) (discrete w) (discrete w)
              (present w) ps1 Hall E1) as (ps2 & ps3 & H2 & H3 & Heq).
  rewrite H2. eexists. split; [reflexivity|]. cbn [present set_present].
  rewrite Heq. by apply (state_loop_same_value d b (discrete w)).
Qed.

Lemma state_round_trip_restores_events_witness :
  let w := sample_world false [] []
             [idle_sensor "a" [mkEvent "x" false; mkEvent "y" true]] in
  exists w2,
    state "y" true (world_of (state "y" false w)) = Ret tt w2
    /\ events <$> present w2 = events <$> present w.
Proof.
  intros w.
  apply (state_round_trip_restores_events "y" false true w
           (world_of (state "y" false w))).
  - discriminate.
  - intros [|[|k]] [|[|[|i]]] e; vm_compute; intros [= <-]; try discriminate;
      reflexivity.
  - reflexivity.
Defined.

(** ** The maps sent at signon and in snapshots *)

Lemma enabled_tree_snoc ps s :
  enabled_tree (ps ++ [s]) = <[name s := enabled_descs s]> (enabled_tree ps).
Proof. unfold enabled_tree. by rewrite foldl_snoc. Qed.

Lemma signon_tree_snoc ps s :
  signon_tree (ps ++ [s]) = <[name s := desc <$> events s]> (signon_tree ps).
Proof. unfold signon_tree. by rewrite foldl_snoc. Qed.

Lemma signon_sources_snoc ps s :
  signon_sources (ps ++ [s]) = <[name s := sources s]> (signon_sources ps).
Proof. unfold signon_sources. by rewrite foldl_snoc. Qed.

(** X10. When sensor names are unique, the maps sent to viewers have one
    entry per sensor under its name: the snapshot lists the descriptions
    of its enabled events in order, the signon tree the descriptions of
    all its events in order, the signon sources its source count. *)
Theorem trees_list_each_sensor_under_its_name ps k s :
  NoDup (name <$> ps) ->
  ps !! k = Some s ->
  enabled_tree ps !! name s = Some (enabled_descs s)
  /\ signon_tree ps !! name s = Some (desc <$> events s)
  /\ signon_sources ps !! name s = Some (sources s).
Proof.
  revert k s. induction ps as [|s0 ps IH] using rev_ind; intros k s Hnd Hk;
    [done|].
  rewrite enabled_tree_snoc, signon_tree_snoc, signon_sources_snoc.
  rewrite fmap_app in Hnd.
  apply list.NoDup_app in Hnd as (Hnd & Hfresh & _).
  destruct (decide (k = length ps)) as [->|Hne].
  - rewrite list_lookup_middle in Hk by done. injection Hk as <-.
    by rewrite !lookup_insert_eq.
  - assert (ps !! k = Some s) as Hk'.
    { apply lookup_lt_Some in Hk as Hlt. rewrite length_app in Hlt.
      simpl in Hlt. rewrite lookup_app_l in Hk by lia. done. }
    assert (name s0 <> name s) as Hn.
    { intros Heq. apply (Hfresh (name s)).
      - apply list_elem_of_fmap. exists s. split; [done|].
        by apply list_elem_of_lookup_2 in Hk'.
      - rewrite <- Heq. simpl. apply list_elem_of_here. }
    rewrite !lookup_insert_ne by done. by apply (IH k).
Qed.

Lemma trees_list_each_sensor_under_its_name_witness :
  let ps := [idle_sensor "a" [mkEvent "x" true; mkEvent "y" false];
             idle_sensor "b" [mkEvent "z" true]] in
  enabled_tree ps !! "a" = Some ["x"]
  /\ signon_tree ps !! "a" = Some ["x"; "y"]
  /\ signon_sources ps !! "a" = Some 1%N.
Proof.
  intros ps.
  apply (trees_list_each_sensor_under_its_name ps 0
           (idle_sensor "a" [mkEvent "x" true; mkEvent "y" false])).
  - apply (bool_decide_unpack _). vm_compute. reflexivity.
  - reflexivity.
Defined.

(** X11. Whatever the sensors and their names, a snapshot and the signon
    tree have the same keys, and the events a snapshot lists under a key
    are, in order, among those the signon tree lists under it: a viewer
    is never told of an enabled event it was not told of at signon. *)
Theorem snapshot_within_signon_tree ps n :
  (enabled_tree ps !! n = None <-> signon_tree ps !! n = None)
  /\ (forall l, enabled_tree ps !! n = Some l ->
        exists l', signon_tree ps !! n = Some l' /\ sublist l l').
Proof.
  induction ps as [|s ps IH] using rev_ind; [done|].
  rewrite enabled_tree_snoc, signon_tree_snoc.
  destruct (decide (name s = n)) as [<-|Hne].
  - rewrite !lookup_insert_eq. split; [done|].
    intros l [= <-]. eexists. split; [done|].
    unfold enabled_descs. apply fmap_sublist, sublist_filter.
  - by rewrite !lookup_insert_ne.
Qed.

(** With two sensors of the same name the later one overwrites the
    earlier in both maps. *)
Example trees_duplicate_name :
  let ps := [idle_sensor "a" [mkEvent "x" true];
             idle_sensor "a" [mkEvent "y" true]] in
  enabled_tree ps = {["a" := ["y"]]} /\ signon_tree ps = {["a" := ["y"]]}.
Proof. vm_compute. done. Qed.

(** ** toggle *)

Lemma deliveries_payload wf mk targets : forall n k,
  Forall (fun d => exists j, payload d = mk j) (deliveries wf n mk k targets).
Proof.
  induction targets as [|c rest IH]; intros n k; simpl; constructor;
    [by exists k|apply IH].
Qed.

(** X12. A successful toggle is followed by one snapshot to every
    registered socket, stopped or not, in registry order, and each
    snapshot carries the enabled events as they are after the change,
    with the current interval and mode. *)
Theorem toggle_sends_new_state_to_all d val (b : bool) w w1 :
  val = (if b then "on" else "off") ->
  state d b w = Ret tt w1 ->
  exists ds w2,
    toggle d val w = Ret tt w2
    /\ wire w2 = wire w ++ ds
    /\ to <$> ds = registry_sockets w
    /\ Forall (fun x => exists ts,
                 payload x = ChangeMessage "enabled" ts (interval w)
                               (discrete w) (enabled_tree (present w1))) ds
    /\ present w2 = present w1 /\ connections w2 = connections w.
Proof.
  intros -> H1.
  assert (toggle d (if b then "on" else "off") w = change_all w1) as ->.
  { unfold toggle, bind. destruct b; simpl; by rewrite H1. }
  destruct (state_world d b w) as [ps Hps]. rewrite H1 in Hps.
  simpl in Hps. subst w1. rewrite change_all_run.
  eexists. eexists. split; [reflexivity|].
  cbn [wire connections present delivered set_clock_reads set_log set_wire
       set_present heap wfail interval discrete].
  split; [reflexivity|]. split.
  - rewrite deliveries_to. unfold registry_sockets.
    by rewrite <- list_fmap_compose.
  - split; [|done].
    eapply list.Forall_impl; [apply deliveries_payload|].
    intros x [j ->]. by eexists.
Qed.

Lemma toggle_sends_new_state_to_all_witness :
  let w := sample_world false [5; 6] []
             [idle_sensor "a" [mkEvent "x" false]] in
  exists ds w2,
    toggle "x" "on" w = Ret tt w2
    /\ wire w2 = wire w ++ ds
    /\ to <$> ds = registry_sockets w
    /\ Forall (fun x => exists ts,
                 payload x = ChangeMessage "enabled" ts (interval w)
                               (discrete w)
                               (enabled_tree
                                  (present (world_of (state "x" true w))))) ds
    /\ present w2 = present (world_of (state "x" true w))
    /\ connections w2 = connections w.
Proof.
  intros w.
  apply (toggle_sends_new_state_to_all "x" "on" true w
           (world_of (state "x" true w))); reflexivity.
Defined.

(** ** More on the coalescer *)

Lemma length_concat_nonempty {A} (bs : list (list A)) :
  Forall (fun b => b <> []) bs -> length bs <= length (concat bs).
Proof.
  induction 1 as [|b bs Hb _ IH]; simpl; [done|].
  rewrite length_app. destruct b; [done|]. simpl. lia.
Qed.

(** X13. Every flush costs exactly one epoch: the epochs buffered at the
    start plus those fed in are as many as the epochs in the flushed
    batches, plus one per batch, plus those still buffered. So at most
    half of the epochs are lost, and at most that many batches are
    flushed. *)
Theorem coalesce_run_loses_one_epoch_per_flush window eps st :
  let r := coalesce_run window st eps in
  length (epochs st) + length eps
  = length (concat (snd r)) + length (snd r) + length (epochs (fst r))
  /\ 2 * length (snd r) <= length (epochs st) + length eps.
Proof.
  cbv zeta.
  assert (length (epochs st) + length eps
          = length (concat (snd (coalesce_run window st eps)))
            + length (snd (coalesce_run window st eps))
            + length (epochs (fst (coalesce_run window st eps)))) as Hcount.
  { revert st. induction eps as [|[ts rs] eps IH]; intros st; simpl; [lia|].
    destruct (coalesce window st ts (ts :: rs)) as [st' [b|]] eqn:E; simpl.
    - destruct (coalesce_flush_inv _ _ _ _ _ _ E) as (-> & _ & ->).
      rewrite length_app. specialize (IH (mkLive ts [])). simpl in IH. lia.
    - rewrite (coalesce_keep_inv _ _ _ _ _ E). rewrite <- IH. simpl.
      rewrite length_app. simpl. lia. }
  split; [exact Hcount|].
  pose proof (length_concat_nonempty _
                (coalesce_run_batches_nonempty window eps st)). lia.
Qed.

Lemma coalesce_within_window window st timestamp samples :
  (wrap64 (timestamp - lastTimestamp st) < window)%Z ->
  coalesce window st timestamp samples
  = (mkLive (lastTimestamp st) (epochs st ++ [samples]), None).
Proof.
  intros H. unfold coalesce. apply Z.ltb_lt in H. by rewrite H.
Qed.

(** X14. While every epoch is stamped less than the window after the
    last flush, nothing is flushed and nothing is lost: all epochs are
    appended to the buffer in order, however many they are. *)
Theorem coalesce_run_within_window_keeps_all window eps st :
  Forall (fun e => (wrap64 (fst e - lastTimestamp st) < window)%Z) eps ->
  coalesce_run window st eps
  = (mkLive (lastTimestamp st) (epochs st ++ epochs_of eps), []).
Proof.
  revert st. induction eps as [|[ts rs] eps IH]; intros st H.
  - simpl. rewrite app_nil_r. by destruct st.
  - inversion H as [|? ? Hts Hrest]; subst. simpl in Hts.
    simpl. rewrite (coalesce_within_window _ _ _ _ Hts). simpl.
    rewrite (IH (mkLive (lastTimestamp st) (epochs st ++ [ts :: rs])))
      by done.
    simpl. by rewrite <- (assoc_L (++)).
Qed.

Lemma coalesce_run_within_window_keeps_all_witness :
  coalesce_run 10 live_init [(1, [7]); (5, [8]); (9, [9])]%Z
  = (mkLive 0 [[1; 7]; [5; 8]; [9; 9]]%Z, []).
Proof.
  apply (coalesce_run_within_window_keeps_all 10
           [(1, [7]); (5, [8]); (9, [9])]%Z live_init).
  repeat constructor.
Defined.

(** ** The sampling loop with viewers connected *)

Lemma sample_sensors_spec ps :
  fst (sample_sensors ps) = concat ((fun s => readings s (sampled s)) <$> ps)
  /\ sampled <$> snd (sample_sensors ps) = (fun s => S (sampled s)) <$> ps
  /\ events <$> snd (sample_sensors ps) = events <$> ps
  /\ name <$> snd (sample_sensors ps) = name <$> ps.
Proof.
  induction ps as [|s ps (IH1 & IH2 & IH3 & IH4)]; [done|].
  cbn [sample_sensors fst snd]. rewrite !fmap_cons, IH1, IH2, IH3, IH4.
  done.
Qed.

Lemma broadcastLabel_run ts label w :
  broadcastLabel ts label w
  = Ret tt (delivered w
              (deliveries (wfail w) (length (wire w))
                 (fun _ => LabelMessage "label" ts label) 0
                 (heap w <$> connections w))).
Proof.
  unfold broadcastLabel, bind at 1, get at 1. apply broadcastLabel_range.
Qed.

Lemma broadcastData_run eps w :
  broadcastData eps w
  = Ret tt (delivered w
              (deliveries (wfail w) (length (wire w))
                 (fun _ => DataMessage eps) 0
                 (filter (fun c => stopped c = false)
                         (heap w <$> connections w)))).
Proof.
  unfold broadcastData, bind at 1, get at 1. apply broadcastData_range.
Qed.

(** One iteration with a non-empty registry, step by step. *)
Lemma live_tick_run rd st w :
  connections w <> [] ->
  live_tick rd st w =
    let w0 := if fifo_err rd then set_log (log w ++ [LogFifo]) w else w in
    let ts := Z.quot (wrap64 (clock w (clock_reads w))) 1000 in
    let w1 := set_clock_reads (S (clock_reads w)) w0 in
    let wl := if (0 <? fifo_n rd)%Z
              then delivered w1
                     (deliveries (wfail w) (length (wire w))
                        (fun _ => LabelMessage "label" ts (fifo_label rd)) 0
                        (heap w <$> connections w))
              else w1 in
    let r := sample_sensors (present w) in
    let ws := set_present (snd r) wl in
    let c := coalesce (coalescing w) st ts (ts :: fst r) in
    match snd c with
    | Some batch => bind (broadcastData batch) (fun _ => ret (fst c)) ws
    | None => Ret (fst c) ws
    end.
Proof.
  intros Hne. unfold live_tick.
  unfold bind at 1. unfold validateNonblock.
  assert (forall w0 : World,
    connections w0 = connections w -> heap w0 = heap w ->
    wfail w0 = wfail w -> wire w0 = wire w -> clock w0 = clock w ->
    clock_reads w0 = clock_reads w -> present w0 = present w ->
    coalescing w0 = coalescing w ->
    bind now_micros (fun timestamp =>
      run (if (0 <? fifo_n rd)%Z
           then broadcastLabel timestamp (fifo_label rd) else ret tt);
      do w' <- get;
      if length (connections w') =? 0 then ret st
      else
        do rs <- sample_present;
        let samples := timestamp :: rs in
        let r := coalesce (coalescing w') st timestamp samples in
        match snd r with
        | Some batch => run broadcastData batch; ret (fst r)
        | None => ret (fst r)
        end) w0
    = let ts := Z.quot (wrap64 (clock w (clock_reads w))) 1000 in
      let w1 := set_clock_reads (S (clock_reads w)) w0 in
      let wl := if (0 <? fifo_n rd)%Z
                then delivered w1
                       (deliveries (wfail w) (length (wire w))
                          (fun _ => LabelMessage "label" ts (fifo_label rd)) 0
                          (heap w <$> connections w))
                else w1 in
      let r := sample_sensors (present w) in
      let ws := set_present (snd r) wl in
      let c := coalesce (coalescing w) st ts (ts :: fst r) in
      match snd c with
      | Some batch => bind (broadcastData batch) (fun _ => ret (fst c)) ws
      | None => Ret (fst c) ws
      end) as Hbody.
  { intros w0 Hc Hh Hf Hw Hk Hr Hp Hco. unfold bind at 1. unfold now_micros.
    rewrite Hk, Hr. cbv zeta. unfold bind at 1.
    destruct (0 <? fifo_n rd)%Z.
    - rewrite broadcastLabel_run.
      cbn [wfail wire heap connections set_clock_reads].
      rewrite Hc, Hh, Hf, Hw.
      unfold bind at 1. unfold get at 1.
      cbn [connections delivered set_log set_wire set_clock_reads].
      rewrite Hc. destruct (connections w) as [|p ps] eqn:Ec; [done|].
      cbn [length Nat.eqb]. unfold bind at 1. unfold sample_present.
      cbn [present coalescing delivered set_log set_wire set_clock_reads].
      rewrite Hp, Hco.
      destruct (snd (coalesce _ _ _ _)); reflexivity.
    - unfold ret at 1. unfold bind at 1. unfold get at 1.
      cbn [connections set_clock_reads].
      rewrite Hc. destruct (connections w) as [|p ps] eqn:Ec; [done|].
      cbn [length Nat.eqb]. unfold bind at 1. unfold sample_present.
      cbn [present coalescing set_clock_reads].
      rewrite Hp, Hco.
      destruct (snd (coalesce _ _ _ _)); reflexivity. }
  destruct (fifo_err rd).
  - unfold println, modify. by rewrite Hbody.
  - unfold ret at 1. by rewrite Hbody.
Qed.

(** X15. With at least one connection registered, an iteration of the
    sampling loop never panics and samples every present sensor exactly
    once, in order, stopped viewers or not: the epoch it hands to the
    coalescing branch is the timestamp followed by the sensors' readings
    in sensor order. It changes no event, no connection, and neither the
    registry nor the interval and mode. *)
Theorem live_tick_samples_every_sensor_once rd st w :
  connections w <> [] ->
  let ts := Z.quot (wrap64 (clock w (clock_reads w))) 1000 in
  let epoch := ts :: concat ((fun s => readings s (sampled s)) <$> present w) in
  exists w',
    live_tick rd st w = Ret (fst (coalesce (coalescing w) st ts epoch)) w'
    /\ sampled <$> present w' = (fun s => S (sampled s)) <$> present w
    /\ events <$> present w' = events <$> present w
    /\ connections w' = connections w /\ heap w' = heap w
    /\ interval w' = interval w /\ discrete w' = discrete w.
Proof.
  intros Hne ts epoch. rewrite (live_tick_run rd st w Hne). cbv zeta.
  destruct (sample_sensors_spec (present w)) as (Hr & Hs & He & _).
  rewrite Hr. fold ts. fold epoch.
  destruct (snd (coalesce (coalescing w) st ts epoch)).
  - unfold bind. rewrite broadcastData_run. eexists. split; [reflexivity|].
    cbn [present delivered set_log set_wire set_present connections heap
         interval discrete].
    destruct (0 <? fifo_n rd)%Z; destruct (fifo_err rd); done.
  - eexists. split; [reflexivity|].
    cbn [present set_present connections heap interval discrete].
    destruct (0 <? fifo_n rd)%Z; destruct (fifo_err rd); done.
Qed.

Lemma live_tick_samples_every_sensor_once_witness :
  let w := sample_world false [5] [] [idle_sensor "a" []; idle_sensor "b" []] in
  exists w',
    live_tick (mkFifo false 0 "") live_init w = Ret (mkLive 0 [[0; 0; 0]%Z]) w'
    /\ sampled <$> present w' = [1; 1].
Proof.
  intros w.
  destruct (live_tick_samples_every_sensor_once (mkFifo false 0 "")
              live_init w) as (w' & Hrun & Hs & _); [discriminate|].
  exists w'. split; [exact Hrun|exact Hs].
Defined.

Lemma no_data_targets_when_all_stopped (h : nat -> Connection) ps :
  Forall (fun p => stopped (h p) = true) ps ->
  filter (fun c => stopped c = false) (h <$> ps) = [].
Proof.
  induction 1 as [|p ps Hp _ IH]; [done|].
  rewrite fmap_cons, filter_cons_False by congruence. exact IH.
Qed.

(** X16. When every registered connection is stopped and no label is
    pending, an iteration still samples every sensor and still runs the
    coalescing branch, but writes to no socket: a batch flushed then
    reaches nobody and its epochs are gone from the buffer. *)
Theorem live_tick_with_all_stopped_sends_nothing rd st w :
  connections w <> [] ->
  Forall (fun p => stopped (heap w p) = true) (connections w) ->
  (fifo_n rd <= 0)%Z ->
  let ts := Z.quot (wrap64 (clock w (clock_reads w))) 1000 in
  let epoch := ts :: concat ((fun s => readings s (sampled s)) <$> present w) in
  exists w',
    live_tick rd st w = Ret (fst (coalesce (coalescing w) st ts epoch)) w'
    /\ wire w' = wire w
    /\ sampled <$> present w' = (fun s => S (sampled s)) <$> present w.
Proof.
  intros Hne Hall Hn ts epoch. rewrite (live_tick_run rd st w Hne). cbv zeta.
  destruct (sample_sensors_spec (present w)) as (Hr & Hs & _).
  rewrite Hr. fold ts. fold epoch.
  apply Z.ltb_ge in Hn. rewrite Hn.
  destruct (snd (coalesce (coalescing w) st ts epoch)).
  - unfold bind. rewrite broadcastData_run. eexists. split; [reflexivity|].
    cbn [heap connections set_present set_clock_reads].
    replace (heap (if fifo_err rd then _ else w)) with (heap w)
      by (by destruct (fifo_err rd)).
    replace (connections (if fifo_err rd then _ else w)) with (connections w)
      by (by destruct (fifo_err rd)).
    rewrite no_data_targets_when_all_stopped by done.
    cbn [deliveries delivered wire present set_log set_wire set_present
         set_clock_reads].
    rewrite app_nil_r. by destruct (fifo_err rd).
  - eexists. split; [reflexivity|].
    cbn [wire present set_present set_clock_reads].
    by destruct (fifo_err rd).
Qed.

Lemma live_tick_with_all_stopped_sends_nothing_witness :
  let w := set_heap (fun a => mkConnection a true)
             (sample_world false [5; 6] [] [idle_sensor "a" []]) in
  exists w',
    live_tick (mkFifo false 0 "") (mkLive (-20) [[1%Z]]) w = Ret (mkLive 0 []) w'
    /\ wire w' = []
    /\ sampled <$> present w' = [1].
Proof.
  intros w.
  destruct (live_tick_with_all_stopped_sends_nothing (mkFifo false 0 "")
              (mkLive (-20) [[1%Z]]) w) as (w' & Hrun & Hw & Hs).
  - discriminate.
  - repeat constructor.
  - reflexivity || lia.
  - exists w'. split; [exact Hrun|]. split; [exact Hw|exact Hs].
Defined.

(** ** The interval operation on well-formed numbers *)

Lemma digit_char_byte d :
  d < 10 -> Z.of_N (Ascii.N_of_ascii (digit_char d)) = (48 + Z.of_nat d)%Z.
Proof.
  intros H. do 10 (destruct d as [|d]; [reflexivity|]). lia.
Qed.

Lemma bytes_of_digits ds :
  Forall (fun d => d < 10) ds ->
  bytes_of (digits_string ds) = (fun d => (48 + Z.of_nat d)%Z) <$> ds.
Proof.
  unfold bytes_of. induction 1 as [|d ds Hd _ IH]; [done|].
  cbn [digits_string String.list_ascii_of_string]. rewrite !fmap_cons.
  by rewrite digit_char_byte, IH.
Qed.

Lemma Atoi_fast_loop_digits ds : forall n,
  Forall (fun d => d < 10) ds ->
  Atoi_fast_loop ((fun d => (48 + Z.of_nat d)%Z) <$> ds) n
  = Some (foldl (fun acc d => (acc * 10 + Z.of_nat d)%Z) n ds).
Proof.
  induction ds as [|d ds IH]; intros n H; [done|].
  inversion H as [|? ? Hd Hrest]; subst.
  rewrite fmap_cons. cbn [Atoi_fast_loop foldl].
  replace ((48 + Z.of_nat d - 48) mod 256)%Z with (Z.of_nat d)
    by (rewrite Z.mod_small; lia).
  destruct (Z.ltb_spec 9 (Z.of_nat d)); [lia|]. by apply IH.
Qed.

Lemma Atoi_digits (neg : bool) ds :
  Forall (fun d => d < 10) ds ->
  0 < length ds <= 17 ->
  Atoi ((if neg then "-" else "") +:+ digits_string ds)
  = ((if neg then - digits_value ds else digits_value ds)%Z, None).
Proof.
  intros Hds Hlen. unfold Atoi.
  assert (bytes_of ((if neg then "-" else "") +:+ digits_string ds)
          = (if neg then [45%Z] else [])
              ++ ((fun d => (48 + Z.of_nat d)%Z) <$> ds)) as ->.
  { destruct neg.
    - change ("-" +:+ digits_string ds)
        with (String "-"%char (digits_string ds)).
      unfold bytes_of. cbn [String.list_ascii_of_string]. rewrite fmap_cons.
      cbn [app]. f_equal. by apply bytes_of_digits.
    - change ("" +:+ digits_string ds) with (digits_string ds).
      by apply bytes_of_digits. }
  destruct ds as [|d ds]; [simpl in Hlen; lia|].
  inversion Hds as [|? ? Hd _]; subst.
  destruct neg.
  - cbn [app]. cbn [length]. rewrite length_fmap.
    replace ((0 <? S (length (d :: ds))) && (S (length (d :: ds)) <? 19))
      with true.
    2:{ symmetry. apply andb_true_iff. split; apply Nat.ltb_lt; simpl in *; lia. }
    cbn [Z.eqb Pos.eqb orb andb]. rewrite length_fmap.
    replace (length (d :: ds) <? 1) with false
      by (symmetry; apply Nat.ltb_ge; simpl; lia).
    by rewrite Atoi_fast_loop_digits.
  - cbn [app]. rewrite length_fmap.
    replace ((0 <? length (d :: ds)) && (length (d :: ds) <? 19)) with true.
    2:{ symmetry. apply andb_true_iff. split; apply Nat.ltb_lt; simpl in *; lia. }
    rewrite fmap_cons.
    replace ((48 + Z.of_nat d =? 45)%Z) with false
      by (symmetry; apply Z.eqb_neq; lia).
    replace ((48 + Z.of_nat d =? 43)%Z) with false
      by (symmetry; apply Z.eqb_neq; lia).
    cbn [orb andb].
    change ((48 + Z.of_nat d)%Z :: ((fun d0 => (48 + Z.of_nat d0)%Z) <$> ds))
      with ((fun d0 => (48 + Z.of_nat d0)%Z) <$> (d :: ds)).
    by rewrite Atoi_fast_loop_digits.
Qed.

(** X17. An interval message whose Value is a decimal numeral of up to
    17 digits, with or without a minus sign, sets the interval to that
    number and prints no warning: zero and negative intervals are
    accepted like any other. *)
Theorem interval_accepts_any_signed_decimal addr msg w (neg : bool) ds :
  field "Op" msg = "interval" ->
  field "Value" msg = (if neg then "-" else "") +:+ digits_string ds ->
  Forall (fun d => d < 10) ds ->
  0 < length ds <= 17 ->
  monitor_step addr (Some msg) w
  = Ret true
      (set_interval (if neg then - digits_value ds else digits_value ds)%Z
                    (recv_logged msg w)).
Proof.
  intros Hop Hval Hds Hlen. rewrite (monitor_step_interval _ _ _ Hop).
  cbv zeta. rewrite Hval, (Atoi_digits neg ds Hds Hlen). reflexivity.
Qed.

Lemma interval_accepts_any_signed_decimal_witness :
  let w := sample_world false [5] [] [] in
  monitor_step 5 (Some (control "interval" "Value" "-25")) w
  = Ret true (set_interval (-25) w).
Proof.
  intros w.
  apply (interval_accepts_any_signed_decimal 5
           (control "interval" "Value" "-25") w true [2; 5]).
  - reflexivity.
  - reflexivity.
  - repeat constructor.
  - simpl. lia.
Defined.

(** ** initweb *)

Lemma Split_cons s sep : exists h t, Split s sep = h :: t.
Proof.
  destruct s as [|a rest]; simpl; [by eexists; eexists|].
  destruct (Ascii.eqb a sep); [by eexists; eexists|].
  destruct (Split rest sep); by eexists; eexists.
Qed.

Lemma Split_without_sep s sep :
  sep ∉ String.list_ascii_of_string s -> Split s sep = [s].
Proof.
  induction s as [|a rest IH]; intros H; [done|]. simpl in *.
  apply not_elem_of_cons in H as [Hne Hrest].
  destruct (Ascii.eqb_spec a sep) as [->|_]; [done|].
  by rewrite IH.
Qed.

Lemma Split_at_first_sep host rest sep :
  sep ∉ String.list_ascii_of_string host ->
  Split (host +:+ String sep rest) sep = host :: Split rest sep.
Proof.
  induction host as [|a host IH]; intros H.
  - change ("" +:+ String sep rest) with (String sep rest). simpl.
    by rewrite Ascii.eqb_refl.
  - change (String a host +:+ String sep rest)
      with (String a (host +:+ String sep rest)).
    simpl in *. apply not_elem_of_cons in H as [Hne Hrest].
    destruct (Ascii.eqb_spec a sep) as [->|_]; [done|].
    by rewrite IH.
Qed.

Lemma Split_second_missing s sep :
  Split s sep !! 1 = None <-> sep ∉ String.list_ascii_of_string s.
Proof.
  induction s as [|a rest IH]; simpl.
  - split; [intros _; apply not_elem_of_nil|done].
  - destruct (Ascii.eqb_spec a sep) as [->|Hne].
    + destruct (Split_cons rest sep) as (h & t & ->). simpl.
      split; [done|]. intros H. destruct H. apply list_elem_of_here.
    + destruct (Split_cons rest sep) as (h & t & Hs). rewrite Hs in *.
      simpl in *. rewrite IH. rewrite not_elem_of_cons. intuition.
Qed.

(** X18. With a readable directory and an address of the form
    host:port, neither part containing a colon, [initweb] serves the
    system directory when that is readable, the local resources
    directory otherwise, and announces exactly the port. *)
Theorem initweb_serves_and_announces_port readable host port :
  readable "/usr/local/share/numascope" = true
    \/ readable "resources" = true ->
  ":"%char ∉ String.list_ascii_of_string host ->
  ":"%char ∉ String.list_ascii_of_string port ->
  initweb readable (host +:+ String ":" port)
  = Serving (if readable "/usr/local/share/numascope"
             then "/usr/local/share/numascope" else "resources") port.
Proof.
  intros Hdir Hhost Hport. unfold initweb.
  rewrite (Split_at_first_sep host port _ Hhost).
  rewrite (Split_without_sep port _ Hport). simpl.
  destruct (readable "/usr/local/share/numascope"); [done|].
  destruct Hdir as [? | ->]; done.
Qed.

Lemma initweb_serves_and_announces_port_witness :
  initweb (fun p => String.eqb p "resources") "localhost:8080"
  = Serving "resources" "8080".
Proof.
  apply (initweb_serves_and_announces_port
           (fun p => String.eqb p "resources") "localhost" "8080").
  - right. reflexivity.
  - apply (bool_decide_unpack _). vm_compute. reflexivity.
  - apply (bool_decide_unpack _). vm_compute. reflexivity.
Defined.

(** X19. [initweb] ends in one of three ways, decided by the two
    directories and the address alone: it panics before listening
    exactly when neither directory is readable; it panics after the
    listener has been started exactly when a directory is readable but
    the address contains no colon; otherwise it serves. *)
Theorem initweb_outcomes readable addr :
  let dir := readable "/usr/local/share/numascope" || readable "resources" in
  match initweb readable addr with
  | Serving _ _ =>
      dir = true /\ ":"%char ∈ String.list_ascii_of_string addr
  | InitPanic _ false => dir = false
  | InitPanic _ true =>
      dir = true /\ ":"%char ∉ String.list_ascii_of_string addr
  end.
Proof.
  cbv zeta. unfold initweb.
  assert (forall path,
    match
      match Split addr ":" !! 1 with
      | Some port => Serving path port
      | None => InitPanic "runtime error: index out of range [1] with length 1" true
      end
    with
    | Serving _ _ => true = true /\ ":"%char ∈ String.list_ascii_of_string addr
    | InitPanic _ false => true = false
    | InitPanic _ true =>
        true = true /\ ":"%char ∉ String.list_ascii_of_string addr
    end) as Hsplit.
  { intros path. destruct (Split addr ":" !! 1) eqn:E.
    - split; [done|].
      destruct (decide (":"%char ∈ String.list_ascii_of_string addr))
        as [|Hno]; [done|].
      apply Split_second_missing in Hno. congruence.
    - split; [done|]. by apply Split_second_missing. }
  destruct (readable "/usr/local/share/numascope"); [apply Hsplit|].
  destruct (readable "resources"); [apply Hsplit|done].
Qed.

(** An address without a colon, as in a bare port number. *)
Example initweb_bare_port :
  initweb (fun _ => true) "8080"
  = InitPanic "runtime error: index out of range [1] with length 1" true.
Proof. reflexivity. Qed.

(** An address with more than one colon: the announced port is the text
    between the first two. *)
Example initweb_ipv6_address :
  initweb (fun _ => true) "[::1]:8080" = Serving "/usr/local/share/numascope" "".
Proof. reflexivity. Qed.

(** ** The interval operation on malformed numbers *)

Lemma ParseInt_error bs e :
  snd (ParseInt bs) = Some e ->
  match e with
  | ErrSyntax => fst (ParseInt bs) = 0%Z
  | ErrRange => fst (ParseInt bs) = (2 ^ 63 - 1)%Z
                \/ fst (ParseInt bs) = (- 2 ^ 63)%Z
  end.
Proof.
  unfold ParseInt. destruct bs as [|c rest]; [by intros [= <-]|].
  destruct (ParseUint _) as [un [[]|]]; [by intros [= <-]|..];
    destruct (negb (c =? 45)%Z && (2 ^ 63 <=? un)%Z);
    try (intros [= <-]; by left);
    destruct ((c =? 45)%Z && (2 ^ 63 <? un)%Z);
    try (intros [= <-]; by right); done.
Qed.

Lemma Atoi_error s e :
  snd (Atoi s) = Some e ->
  match e with
  | ErrSyntax => fst (Atoi s) = 0%Z
  | ErrRange => fst (Atoi s) = (2 ^ 63 - 1)%Z \/ fst (Atoi s) = (- 2 ^ 63)%Z
  end.
Proof.
  unfold Atoi. destruct ((0 <? _) && _); [|apply ParseInt_error].
  destruct (bytes_of s) as [|s0 rest]; [by intros [= <-]|].
  destruct (_ && _); [by intros [= <-]|].
  destruct (Atoi_fast_loop _ _); [done|by intros [= <-]].
Qed.

(** X20. An interval message whose Value [Atoi] rejects is reported as
    an undefined value and still assigns the interval: to 0 when the
    value is not a number, to the largest or smallest 64-bit integer
    when it is out of range. Nothing is written to any socket. *)
Theorem rejected_interval_value_still_assigned addr msg w e :
  field "Op" msg = "interval" ->
  snd (Atoi (field "Value" msg)) = Some e ->
  exists w',
    monitor_step addr (Some msg) w = Ret true w'
    /\ log w' = log (recv_logged msg w)
                  ++ [LogUndefinedValue (field "Value" msg)]
    /\ wire w' = wire w
    /\ match e with
       | ErrSyntax => interval w' = 0%Z
       | ErrRange => interval w' = (2 ^ 63 - 1)%Z
                     \/ interval w' = (- 2 ^ 63)%Z
       end.
Proof.
  intros Hop He. rewrite (monitor_step_interval _ _ _ Hop). cbv zeta.
  rewrite He. eexists. split; [reflexivity|].
  pose proof (Atoi_error _ _ He) as Hv.
  unfold recv_logged. destruct (debug w); simpl; (split; [done|split; [done|]]);
    exact Hv.
Qed.

Lemma rejected_interval_value_still_assigned_witness :
  let w := sample_world false [5] [] [] in
  exists w',
    monitor_step 5
      (Some (control "interval" "Value" "-99999999999999999999")) w
    = Ret true w'
    /\ log w' = log (recv_logged
                       (control "interval" "Value" "-99999999999999999999") w)
                  ++ [LogUndefinedValue "-99999999999999999999"]
    /\ wire w' = wire w
    /\ (interval w' = (2 ^ 63 - 1)%Z \/ interval w' = (- 2 ^ 63)%Z).
Proof.
  intros w.
  apply (rejected_interval_value_still_assigned 5
           (control "interval" "Value" "-99999999999999999999") w ErrRange).
  - reflexivity.
  - vm_compute. reflexivity.
Defined.

(** * Properties of the first version *)

Lemma legacy_update_loop_spec samples cs : forall w,
  exists ds,
    Legacy.wire (Legacy.update_loop cs samples w) = Legacy.wire w ++ ds
    /\ Legacy.to <$> ds = cs
    /\ Forall (fun d => Legacy.payload d = Legacy.Samples samples) ds
    /\ Legacy.connections (Legacy.update_loop cs samples w)
       = Legacy.connections w
    /\ (Legacy.debug w = false ->
        Legacy.log (Legacy.update_loop cs samples w) = Legacy.log w)
    /\ (Legacy.debug w = true ->
        length (Legacy.log (Legacy.update_loop cs samples w))
        = length (Legacy.log w)
          + length (filter (fun d => Legacy.failed d = true) ds)).
Proof.
  induction cs as [|c cs IH]; intros w.
  - exists []. simpl. rewrite app_nil_r. repeat split; try done; lia.
  - cbn [Legacy.update_loop].
    set (err := Legacy.wfail w c (length (Legacy.wire w))).
    set (w1 := if fst (Legacy.WriteJSON c (Legacy.Samples samples) w)
               then Legacy.debugln Legacy.LogFailedWriting
                      (snd (Legacy.WriteJSON c (Legacy.Samples samples) w))
               else snd (Legacy.WriteJSON c (Legacy.Samples samples) w)).
    assert (Legacy.wire w1
            = Legacy.wire w ++ [Legacy.mkWrite c (Legacy.Samples samples) err]
            /\ Legacy.connections w1 = Legacy.connections w
            /\ Legacy.debug w1 = Legacy.debug w
            /\ Legacy.log w1
               = Legacy.log w
                 ++ (if Legacy.debug w && err
                     then [Legacy.LogFailedWriting] else []))
      as (Hw1 & Hc1 & Hd1 & Hl1).
    { subst w1. unfold Legacy.WriteJSON, Legacy.debugln. cbn [fst snd].
      fold err. cbn [Legacy.debug Legacy.wire Legacy.connections Legacy.log].
      destruct err; destruct (Legacy.debug w); simpl;
        rewrite ?app_nil_r; done. }
    destruct (IH w1) as (ds & Hw & Hto & Hpay & Hc & Hq & Hl).
    exists (Legacy.mkWrite c (Legacy.Samples samples) err :: ds).
    split; [by rewrite Hw, Hw1, <- (assoc_L (++))|].
    split; [by rewrite fmap_cons, Hto|].
    split; [by constructor|].
    split; [by rewrite Hc, Hc1|]. rewrite Hd1 in Hq, Hl. split.
    + intros Hd. rewrite Hq, Hl1, Hd by done. cbn [andb]. by rewrite app_nil_r.
    + intros Hd. rewrite Hl, Hl1, Hd by done. cbn [andb].
      destruct err eqn:Ee.
      * rewrite filter_cons_True by done. rewrite length_app. simpl. lia.
      * rewrite filter_cons_False by (simpl; congruence).
        rewrite app_nil_r. lia.
Qed.

(** X21. In the first version, [update] writes the sample vector once to
    every registered socket, in registry order and whether or not earlier
    writes failed, and leaves the registry as it was; a failed write is
    reported on the console only when debug is on, once per failure. *)
Theorem legacy_update_reaches_every_socket samples w :
  exists ds,
    Legacy.wire (Legacy.update samples w) = Legacy.wire w ++ ds
    /\ Legacy.to <$> ds = Legacy.connections w
    /\ Forall (fun d => Legacy.payload d = Legacy.Samples samples) ds
    /\ Legacy.connections (Legacy.update samples w) = Legacy.connections w
    /\ (Legacy.debug w = false ->
        Legacy.log (Legacy.update samples w) = Legacy.log w)
    /\ (Legacy.debug w = true ->
        length (Legacy.log (Legacy.update samples w))
        = length (Legacy.log w)
          + length (filter (fun d => Legacy.failed d = true) ds)).
Proof. apply legacy_update_loop_spec. Qed.

(** X22. In the first version, [monitor] enters its read loop exactly
    when the upgrade succeeds, the first message is the token and the
    signon write succeeds. Then it has written the signon message and the
    enabled list to the new socket, in that order and nothing else, and
    appended the socket to the registry, even if the second write failed;
    otherwise the registry is unchanged, and without the token nothing is
    written at all. *)
Theorem legacy_handshake_outcomes upgrade_err c first w :
  let r := Legacy.monitor_handshake upgrade_err c first w in
  (fst r = true <->
   upgrade_err = false /\ first = Some Legacy.token
   /\ Legacy.wfail w c (length (Legacy.wire w)) = false)
  /\ Legacy.connections (snd r)
     = (if fst r then Legacy.connections w ++ [c] else Legacy.connections w)
  /\ (fst r = true ->
      exists err,
        Legacy.wire (snd r)
        = Legacy.wire w
          ++ [Legacy.mkWrite c
                (Legacy.SignonMessage (Legacy.interval w)
                   (Legacy.signon_tree (Legacy.sensors w))) false;
              Legacy.mkWrite c
                (Legacy.EnabledList (Legacy.enabled_list (Legacy.sensors w)))
                err])
  /\ (upgrade_err = true \/ first <> Some Legacy.token ->
      Legacy.wire (snd r) = Legacy.wire w).
Proof.
  cbv zeta. unfold Legacy.monitor_handshake.
  destruct upgrade_err.
  { unfold Legacy.debugln. destruct (Legacy.debug w); simpl;
      repeat split; try done; intros (? & _); done. }
  destruct first as [message|].
  2:{ unfold Legacy.debugln. destruct (Legacy.debug w); simpl;
        repeat split; try done; intros (_ & ? & _); done. }
  destruct (String.eqb_spec message Legacy.token) as [->|Hne]; cbn [negb].
  2:{ unfold Legacy.debugln. destruct (Legacy.debug w); simpl;
        repeat split; try done; intros (_ & ? & _); congruence. }
  unfold Legacy.WriteJSON, Legacy.change, Legacy.WriteJSON, Legacy.debugln.
  cbn [fst snd].
  destruct (Legacy.debug w) eqn:Ed;
    cbn [Legacy.wfail Legacy.wire Legacy.debug Legacy.interval Legacy.sensors
         Legacy.connections Legacy.log Legacy.set_connections fst snd];
    destruct (Legacy.wfail w c (length (Legacy.wire w))) eqn:Ef;
    cbn [Legacy.wfail Legacy.wire Legacy.debug Legacy.interval Legacy.sensors
         Legacy.connections Legacy.log Legacy.set_connections fst snd];
    rewrite ?Ed;
    cbn [Legacy.wfail Legacy.wire Legacy.debug Legacy.interval Legacy.sensors
         Legacy.connections Legacy.log Legacy.set_connections fst snd];
    (split; [split; [try done; by intros _|by intros (_ & _ & ?)]|]);
    (split; [done|]);
    (split; [try done; intros _; eexists; by rewrite <- (assoc_L (++))|]);
    intros [?|?]; done.
Qed.

Lemma legacy_remove_loop_spec c w : forall idx,
  Forall (fun i => i < length (Legacy.connections w)) idx ->
  match Legacy.remove_loop c idx w with
  | Legacy.Ret _ w1 =>
      exists i l,
        Legacy.connections w !! i = Some c
        /\ Legacy.connections w !! (length (Legacy.connections w) - 1) = Some l
        /\ w1 = Legacy.set_connections
                  (take (length (Legacy.connections w) - 1)
                        (<[i := l]> (Legacy.connections w))) w
  | Legacy.Panic r w' =>
      r = "element not found" /\ w' = w
      /\ forall i, i ∈ idx -> Legacy.connections w !! i <> Some c
  end.
Proof.
  induction idx as [|i idx IH]; intros Hidx; simpl.
  - split; [done|]. split; [done|]. intros i Hi. by apply elem_of_nil in Hi.
  - inversion Hidx as [|? ? Hi Hrest]; subst.
    destruct (lookup_lt_is_Some_2 _ _ Hi) as [p Hp]. rewrite Hp.
    destruct (lookup_lt_is_Some_2 (Legacy.connections w)
                (length (Legacy.connections w) - 1)) as [l Hl]; [lia|].
    rewrite Hl. destruct (Nat.eqb_spec p c) as [->|Hne].
    + by exists i, l.
    + specialize (IH Hrest).
      destruct (Legacy.remove_loop c idx w) as [[] w1|r w'].
      { destruct IH as (i' & l' & Hi' & Hl' & Hw1). exists i', l'.
        rewrite Hl in Hl'. done. }
      destruct IH as (-> & -> & Hno). split; [done|]. split; [done|].
      intros j Hj. apply elem_of_cons in Hj as [->|Hj]; [|by apply Hno].
      rewrite Hp. congruence.
Qed.

(** X23. In the first version, [remove] succeeds exactly on registered
    sockets: it takes one occurrence of the socket out of the registry,
    keeping the others up to order, and changes nothing else; on a socket
    that is not registered it panics with "element not found". *)
Theorem legacy_remove_outcomes c w :
  (c ∈ Legacy.connections w ->
   exists w1,
     Legacy.remove c w = Legacy.Ret tt w1
     /\ Legacy.connections w ≡ₚ c :: Legacy.connections w1
     /\ w1 = Legacy.set_connections (Legacy.connections w1) w)
  /\ (c ∉ Legacy.connections w ->
      Legacy.remove c w = Legacy.Panic "element not found" w).
Proof.
  assert (Forall (fun i => i < length (Legacy.connections w))
                 (seq 0 (length (Legacy.connections w)))) as Hidx.
  { apply list.Forall_forall. intros i Hi. apply elem_of_seq in Hi. lia. }
  pose proof (legacy_remove_loop_spec c w _ Hidx) as Hspec.
  unfold Legacy.remove. split.
  - intros Hin. apply list_elem_of_lookup in Hin as [j Hj].
    destruct (Legacy.remove_loop c _ w) as [[] w1|r w'].
    + destruct Hspec as (i & l & Hi & Hl & ->). eexists.
      split; [reflexivity|]. split; [|done]. by apply swap_remove_perm.
    + destruct Hspec as (_ & _ & Hno). destruct (Hno j); [|done].
      apply elem_of_seq. apply lookup_lt_Some in Hj. lia.
  - intros Hout. destruct (Legacy.remove_loop c _ w) as [[] w1|r w'].
    + destruct Hspec as (i & l & Hi & _). destruct Hout.
      by apply list_elem_of_lookup_2 in Hi.
    + by destruct Hspec as (-> & -> & _).
Qed.

Lemma legacy_remove_outcomes_witness :
  let w := Legacy.mkWorld 100 false [] [5; 6; 7] (fun _ _ => false) [] [] in
  (exists w1,
     Legacy.remove 6 w = Legacy.Ret tt w1
     /\ Legacy.connections w ≡ₚ 6 :: Legacy.connections w1
     /\ w1 = Legacy.set_connections (Legacy.connections w1) w)
  /\ Legacy.remove 9 w = Legacy.Panic "element not found" w.
Proof.
  intros w. destruct (legacy_remove_outcomes 6 w) as [Hin _].
  destruct (legacy_remove_outcomes 9 w) as [_ Hout].
  split.
  - apply Hin. apply (bool_decide_unpack _). vm_compute. reflexivity.
  - apply Hout. apply (bool_decide_unpack _). vm_compute. reflexivity.
Defined.

(** * Further properties: averaging and labels *)

Lemma enabled_tree_fmap f ps :
  (forall s, name (f s) = name s /\ events (f s) = events s) ->
  enabled_tree (f <$> ps) = enabled_tree ps.
Proof.
  intros Hf. induction ps as [|s ps IH] using rev_ind; [done|].
  rewrite fmap_app. change (f <$> [s]) with [f s].
  rewrite !enabled_tree_snoc, IH. unfold enabled_descs.
  destruct (Hf s) as [-> ->]. done.
Qed.

(** X24. The averaging message sets the discrete mode to whether its
    Value is the string false (so any other value, or none, selects
    averaging), and is followed by one snapshot carrying the new mode to
    every registered socket; no event's enabled flag changes. Here
    [Activate], which is defined outside webserver.go, is taken to
    re-apply the mode to every sensor. *)
Theorem averaging_sets_mode_and_rebroadcasts addr msg w :
  field "Op" msg = "averaging" ->
  let mode := String.eqb (field "Value" msg) "false" in
  exists ds w',
    monitor_step addr (Some msg) w = Ret true w'
    /\ discrete w' = mode
    /\ wire w' = wire w ++ ds
    /\ to <$> ds = registry_sockets w
    /\ Forall (fun x => exists ts,
                 payload x = ChangeMessage "enabled" ts (interval w) mode
                               (enabled_tree (present w))) ds
    /\ events <$> present w' = events <$> present w.
Proof.
  intros Hop mode. rewrite (monitor_step_averaging _ _ _ Hop). cbv zeta.
  unfold bind. rewrite change_all_run. unfold ret.
  eexists. eexists. split; [reflexivity|].
  cbn [discrete wire present connections heap wfail interval clock_reads
       delivered set_clock_reads set_log set_wire set_present set_discrete].
  rewrite wire_recv_logged, connections_recv_logged, heap_recv_logged.
  replace (present (recv_logged msg w)) with (present w)
    by (unfold recv_logged; by destruct (debug w)).
  replace (interval (recv_logged msg w)) with (interval w)
    by (unfold recv_logged; by destruct (debug w)).
  split; [done|]. split; [reflexivity|]. split.
  { rewrite deliveries_to. unfold registry_sockets.
    by rewrite <- list_fmap_compose. }
  split.
  - eapply list.Forall_impl; [apply deliveries_payload|].
    intros x [j ->]. unfold snapshot.
    cbn [interval discrete present set_present set_discrete clock].
    replace (present (recv_logged msg w)) with (present w)
      by (unfold recv_logged; by destruct (debug w)).
    replace (interval (recv_logged msg w)) with (interval w)
      by (unfold recv_logged; by destruct (debug w)).
    rewrite enabled_tree_fmap by done. by eexists.
  - rewrite <- list_fmap_compose. by apply list_fmap_ext.
Qed.

Lemma averaging_sets_mode_and_rebroadcasts_witness :
  let w := sample_world false [5; 6] [] [idle_sensor "a" [mkEvent "x" true]] in
  let msg := control "averaging" "Value" "no" in
  exists ds w',
    monitor_step 5 (Some msg) w = Ret true w'
    /\ discrete w' = false
    /\ wire w' = wire w ++ ds
    /\ to <$> ds = registry_sockets w
    /\ Forall (fun x => exists ts,
                 payload x = ChangeMessage "enabled" ts (interval w) false
                               (enabled_tree (present w))) ds
    /\ events <$> present w' = events <$> present w.
Proof.
  intros w msg. apply (averaging_sets_mode_and_rebroadcasts 5 msg w).
  reflexivity.
Defined.

Lemma deliveries_constant wf msg targets : forall n k,
  Forall (fun d => payload d = msg) (deliveries wf n (fun _ => msg) k targets).
Proof.
  induction targets as [|c rest IH]; intros n k; simpl; constructor;
    [done|apply IH].
Qed.

(** X25. A label read from the fifo is sent in the same iteration,
    stamped with the iteration's timestamp, to every registered socket,
    stopped or not, and before any data batch the iteration flushes:
    labels do not wait in the coalescing buffer. *)
Theorem live_tick_forwards_label_first rd st w :
  connections w <> [] ->
  (0 < fifo_n rd)%Z ->
  let ts := Z.quot (wrap64 (clock w (clock_reads w))) 1000 in
  exists st' w' lds dds,
    live_tick rd st w = Ret st' w'
    /\ wire w' = wire w ++ lds ++ dds
    /\ to <$> lds = registry_sockets w
    /\ Forall (fun d => payload d = LabelMessage "label" ts (fifo_label rd)) lds
    /\ Forall (fun d => exists batch, payload d = DataMessage batch) dds.
Proof.
  intros Hne Hn ts. rewrite (live_tick_run rd st w Hne). cbv zeta.
  apply Z.ltb_lt in Hn. rewrite Hn. fold ts.
  set (lds := deliveries (wfail w) (length (wire w))
                (fun _ => LabelMessage "label" ts (fifo_label rd)) 0
                (heap w <$> connections w)).
  assert (to <$> lds = registry_sockets w) as Hto.
  { subst lds. rewrite deliveries_to. unfold registry_sockets.
    by rewrite <- list_fmap_compose. }
  destruct (snd (coalesce _ _ _ _)) as [batch|].
  - unfold bind. rewrite broadcastData_run. unfold ret.
    eexists. eexists. exists lds. eexists. split; [reflexivity|].
    split; [|split; [exact Hto|split; [apply deliveries_constant|]]].
    + cbn [wire delivered set_log set_wire set_present set_clock_reads].
      rewrite <- (assoc_L (++)).
      replace (wire (if fifo_err rd then _ else w)) with (wire w)
        by (by destruct (fifo_err rd)).
      reflexivity.
    + eapply list.Forall_impl; [apply deliveries_constant|].
      intros d Hd. by exists batch.
  - eexists. eexists. exists lds, []. split; [reflexivity|].
    split; [|split; [exact Hto|split; [apply deliveries_constant|done]]].
    cbn [wire delivered set_log set_wire set_present set_clock_reads].
    rewrite app_nil_r.
    replace (wire (if fifo_err rd then _ else w)) with (wire w)
      by (by destruct (fifo_err rd)).
    reflexivity.
Qed.

Lemma live_tick_forwards_label_first_witness :
  let w := sample_world false [5] [] [idle_sensor "a" []] in
  exists st' w' lds dds,
    live_tick (mkFifo false 2 "go") (mkLive (-20) [[1%Z]]) w = Ret st' w'
    /\ wire w' = wire w ++ lds ++ dds
    /\ to <$> lds = registry_sockets w
    /\ Forall (fun d => payload d = LabelMessage "label" 0 "go") lds
    /\ Forall (fun d => exists batch, payload d = DataMessage batch) dds.
Proof.
  intros w.
  apply (live_tick_forwards_label_first (mkFifo false 2 "go")
           (mkLive (-20) [[1%Z]]) w).
  - discriminate.
  - reflexivity.
Defined.

Lemma legacy_handshake_outcomes_witness :
  let w := Legacy.mkWorld 100 false
             [Legacy.mkSensor "a" [Legacy.mkElem "x"; Legacy.mkElem "y"]
                              [Legacy.mkElem "y"]]
             [5] (fun _ _ => false) [] [] in
  let r := Legacy.monitor_handshake false 7 (Some "463ba1974b06") w in
  fst r = true
  /\ Legacy.connections (snd r) = [5; 7]
  /\ exists err,
       Legacy.wire (snd r)
       = [Legacy.mkWrite 7 (Legacy.SignonMessage 100 [{["a" := ["x"; "y"]]}])
                         false;
          Legacy.mkWrite 7 (Legacy.EnabledList ["enabled"; "y"]) err].
Proof.
  intros w r.
  destruct (legacy_handshake_outcomes false 7 (Some "463ba1974b06") w)
    as (Hiff & Hconn & Hwire & _).
  fold r in Hiff, Hconn, Hwire.
  assert (fst r = true) as Hr by (apply Hiff; repeat split; reflexivity).
  split; [exact Hr|]. split.
  - rewrite Hconn, Hr. reflexivity.
  - destruct (Hwire Hr) as [err Hw]. exists err. rewrite Hw. reflexivity.
Defined.

(** * The handshake among the other goroutines *)

Lemma handshake_step_signon upgrade_err sock addr first w :
  handshake_step upgrade_err sock addr first PcSignon w
  = let err := wfail w (socket (heap w addr)) (length (wire w)) in
    Ret (if err then PcReturned else PcChange)
        (delivered (set_clock_reads (S (clock_reads w)) w)
           [mkWrite (socket (heap w addr)) (signon w (clock_reads w)) err]).
Proof.
  destruct w as [? ? dbg ? ? hp ? wf ? ? wr lg]. step_run.
  destruct dbg; step_run; destruct (wf _ _); step_run;
    cbn [flat_map app]; rewrite ?app_nil_r, <- ?(assoc_L (++)); cbn [app];
    reflexivity.
Qed.

Lemma handshake_step_change upgrade_err sock addr first w :
  handshake_step upgrade_err sock addr first PcChange w
  = Ret PcRegister
        (delivered (set_clock_reads (S (clock_reads w)) w)
           [mkWrite (socket (heap w addr)) (snapshot w (clock_reads w))
                    (wfail w (socket (heap w addr)) (length (wire w)))]).
Proof.
  unfold handshake_step. unfold bind at 1. unfold get. unfold bind at 1.
  by rewrite change_delivered.
Qed.

(** Four steps with nothing in between are [monitor] up to its read
    loop. *)
Lemma handshake_steps_are_monitor upgrade_err sock addr first w :
  monitor_handshake upgrade_err sock addr first w
  = bind (handshake_among upgrade_err sock addr first [[]; []; []; []]
            PcStart)
         (fun pc => ret (in_loop pc)) w.
Proof.
  cbn [handshake_among range]. unfold monitor_handshake.
  destruct w as [? ? dbg ? ? hp ? wf ? ? wr lg].
  destruct upgrade_err; [by destruct dbg|].
  destruct first as [message|]; [|by destruct dbg].
  unfold handshake_step at 1.
  destruct (String.eqb message token) eqn:Et; [|by destruct dbg].
  destruct dbg; step_run; rewrite ?fn_lookup_insert; step_run;
    destruct (wf sock (length wr)); step_run;
    rewrite ?fn_lookup_insert; step_run;
    repeat (match goal with
            | |- context [if wf ?a ?b then _ else _] => destruct (wf a b)
            end; step_run);
    reflexivity.
Qed.

Lemma filter_to_other sock (ds : list Write) :
  (forall d, d ∈ ds -> to d <> sock) ->
  filter (fun d => to d = sock) ds = [].
Proof.
  induction ds as [|d ds IH]; intros H; [done|].
  rewrite filter_cons_False by (apply H; apply list_elem_of_here).
  apply IH. intros d' Hd'. apply H. by apply list_elem_of_further.
Qed.

(** A broadcast of the sampling goroutine writes data or labels, to
    registered sockets only, and changes nothing but wire and console. *)
Lemma loop_action_run a w :
  exists ds,
    loop_action a w = Ret tt (delivered w ds)
    /\ (forall d, d ∈ ds ->
          to d ∈ registry_sockets w /\ is_loop_message (payload d)).
Proof.
  destruct a as [batch|ts label]; simpl.
  - destruct (broadcastData_sockets batch w) as (ds & Hrun & Hto & Hpay).
    exists ds. split; [done|]. intros d Hd. split.
    + apply (list_elem_of_fmap_2 to) in Hd. rewrite Hto in Hd.
      apply list_elem_of_fmap in Hd as (p & -> & Hp).
      apply list_elem_of_filter in Hp as [_ Hp].
      unfold registry_sockets. apply list_elem_of_fmap. by exists p.
    + rewrite list.Forall_forall in Hpay. by rewrite (Hpay d Hd).
  - rewrite broadcastLabel_run. eexists. split; [reflexivity|].
    intros d Hd. split.
    + apply (list_elem_of_fmap_2 to) in Hd. rewrite deliveries_to in Hd.
      unfold registry_sockets. by rewrite <- list_fmap_compose in Hd.
    + pose proof (deliveries_constant (wfail w)
                    (LabelMessage "label" ts label)
                    (heap w <$> connections w) (length (wire w)) 0) as Hpay.
      rewrite list.Forall_forall in Hpay. by rewrite (Hpay d Hd).
Qed.

Lemma handshake_inv_registry w sock addr pc w' :
  addr ∉ connections w ->
  in_loop pc = false ->
  handshake_inv w sock addr pc w' ->
  registry_sockets w' = registry_sockets w.
Proof.
  intros Hfresh Hpc (_ & Hc & Hh & _). unfold registry_sockets.
  rewrite Hc, Hpc, app_nil_r. apply list_fmap_ext. intros i p Hp.
  rewrite Hh; [done|]. intros ->. apply Hfresh.
  by apply list_elem_of_lookup_2 in Hp.
Qed.

Lemma loop_action_inv w sock addr pc a w' :
  addr ∉ connections w ->
  sock ∉ registry_sockets w ->
  handshake_inv w sock addr pc w' ->
  exists w'', loop_action a w' = Ret tt w''
              /\ handshake_inv w sock addr pc w''.
Proof.
  intros Hfresh Hsock Hinv.
  destruct (loop_action_run a w') as (ds & Hrun & Hds).
  exists (delivered w' ds). split; [done|].
  pose proof Hinv as ((news & Hw & Hg) & Hc & Hh & Ha & Hp & Hi & Hd).
  split; [|done].
  exists (news ++ ds). split.
  { unfold delivered. cbn [wire set_log set_wire].
    by rewrite Hw, <- (assoc_L (++)). }
  rewrite list.filter_app.
  destruct (in_loop pc) eqn:Hpc.
  - destruct pc; try discriminate. cbn [greeting] in *.
    destruct Hg as (d1 & d2 & rest & Hl & H1 & Hf & H2 & Hrest).
    exists d1, d2, (rest ++ filter (fun d => to d = sock) ds).
    rewrite Hl. split; [done|]. split; [done|]. split; [done|].
    split; [done|]. apply list.Forall_app. split; [done|].
    apply list.Forall_forall. intros d Hin.
    apply list_elem_of_filter in Hin as [_ Hin]. by apply Hds.
  - rewrite (filter_to_other sock ds), app_nil_r; [done|].
    intros d Hin Hto. apply Hsock.
    rewrite <- (handshake_inv_registry w sock addr pc w') by done.
    rewrite <- Hto. by apply Hds.
Qed.

Lemma loop_actions_inv w sock addr pc acts : forall w',
  addr ∉ connections w ->
  sock ∉ registry_sockets w ->
  handshake_inv w sock addr pc w' ->
  exists w'', range acts loop_action w' = Ret tt w''
              /\ handshake_inv w sock addr pc w''.
Proof.
  induction acts as [|a acts IH]; intros w' Hfresh Hsock Hinv.
  - by exists w'.
  - destruct (loop_action_inv w sock addr pc a w' Hfresh Hsock Hinv)
      as (w1 & Hrun & Hinv1).
    destruct (IH w1 Hfresh Hsock Hinv1) as (w2 & Hrun2 & Hinv2).
    exists w2. split; [|done]. cbn [range]. unfold bind. by rewrite Hrun.
Qed.

(** The first step writes nothing and leaves the registry alone. *)
Lemma handshake_step_start upgrade_err sock addr first w :
  exists pc1 w1,
    handshake_step upgrade_err sock addr first PcStart w = Ret pc1 w1
    /\ (pc1 = PcSignon \/ pc1 = PcReturned)
    /\ wire w1 = wire w /\ connections w1 = connections w
    /\ (forall p, p <> addr -> heap w1 p = heap w p)
    /\ (pc1 = PcSignon -> heap w1 addr = mkConnection sock false)
    /\ present w1 = present w /\ interval w1 = interval w
    /\ discrete w1 = discrete w.
Proof.
  destruct w as [? ? dbg ? ? hp ? wf ? ? wr lg]. unfold handshake_step.
  assert (forall p, p <> addr ->
            <[addr := mkConnection sock false]> hp p = hp p) as Hother.
  { intros p Hp. unfold insert, fn_insert. by rewrite decide_False. }
  destruct upgrade_err; [|destruct first as [message|];
    [destruct (String.eqb message token)|]];
    destruct dbg; step_run; eexists; eexists;
    (split; [reflexivity|]); step_run;
    repeat split; auto; try discriminate;
    try (intros _; apply fn_lookup_insert).
Qed.

Lemma handshake_step_inv upgrade_err sock addr first w pc w' :
  handshake_inv w sock addr pc w' ->
  exists pc' w'',
    handshake_step upgrade_err sock addr first pc w' = Ret pc' w''
    /\ handshake_inv w sock addr pc' w''.
Proof.
  intros ((news & Hw & Hg) & Hc & Hh & Ha & Hp & Hi & Hd).
  destruct pc.
  - destruct (handshake_step_start upgrade_err sock addr first w')
      as (pc1 & w1 & Hrun & Hpc & Hw1 & Hc1 & Hh1 & Ha1 & Hp1 & Hi1 & Hd1).
    exists pc1, w1. split; [done|]. cbn [greeting in_loop] in *.
    split; [|split; [|split; [|split]]].
    + exists news. split; [congruence|].
      destruct Hpc as [-> | ->]; cbn [greeting]; [done|by left].
    + destruct Hpc as [-> | ->]; cbn [in_loop]; congruence.
    + intros p Hne. rewrite Hh1 by done. by apply Hh.
    + destruct Hpc as [-> | ->]; [by apply Ha1|done].
    + repeat split; congruence.
  - rewrite handshake_step_signon. cbv zeta. rewrite Ha. cbn [socket].
    eexists. eexists. split; [reflexivity|]. cbn [in_loop] in *.
    set (d := mkWrite sock (signon w' (clock_reads w'))
                      (wfail w' sock (length (wire w')))).
    assert (signon_write w sock d) as Hsw.
    { split; [done|]. unfold d, signon. rewrite Hp. by eexists. }
    split; [|split; [|split; [|split]]].
    + exists (news ++ [d]). split.
      { unfold delivered. cbn [wire set_log set_wire set_clock_reads].
        by rewrite Hw, <- (assoc_L (++)). }
      rewrite list.filter_app, Hg, filter_cons_True by done.
      rewrite filter_nil. cbn [app].
      destruct (wfail w' sock (length (wire w'))) eqn:Ef; cbn [greeting].
      * right. by exists d.
      * by exists d.
    + destruct (wfail w' sock _); exact Hc.
    + exact Hh.
    + destruct (wfail w' sock _); [done|exact Ha].
    + done.
  - rewrite handshake_step_change. rewrite Ha. cbn [socket].
    eexists. eexists. split; [reflexivity|]. cbn [in_loop greeting] in *.
    destruct Hg as (d1 & Hl & H1 & Hf).
    set (d := mkWrite sock (snapshot w' (clock_reads w'))
                      (wfail w' sock (length (wire w')))).
    assert (enabled_write w sock d) as Hew.
    { split; [done|]. unfold d, snapshot. rewrite Hp, Hi, Hd. by eexists. }
    split; [|done].
    exists (news ++ [d]). split.
    { unfold delivered. cbn [wire set_log set_wire set_clock_reads].
      by rewrite Hw, <- (assoc_L (++)). }
    rewrite list.filter_app, Hl, filter_cons_True by done.
    rewrite filter_nil. cbn [app]. by exists d1, d.
  - eexists. eexists. split; [reflexivity|]. cbn [in_loop greeting] in *.
    destruct Hg as (d1 & d2 & Hl & H1 & Hf & H2).
    split; [|split; [|done]].
    + exists news. split; [done|]. exists d1, d2, []. by rewrite Hl.
    + cbn [connections set_connections]. by rewrite Hc, app_nil_r.
  - eexists. eexists. split; [reflexivity|].
    split; [by exists news|done].
  - eexists. eexists. split; [reflexivity|].
    split; [by exists news|done].
Qed.

Lemma handshake_among_inv upgrade_err sock addr first w sched :
  forall pc w',
  addr ∉ connections w ->
  sock ∉ registry_sockets w ->
  handshake_inv w sock addr pc w' ->
  exists pc' w'',
    handshake_among upgrade_err sock addr first sched pc w' = Ret pc' w''
    /\ handshake_inv w sock addr pc' w''.
Proof.
  induction sched as [|acts sched IH]; intros pc w' Hfresh Hsock Hinv.
  - by exists pc, w'.
  - destruct (loop_actions_inv w sock addr pc acts w' Hfresh Hsock Hinv)
      as (w1 & Hrun1 & Hinv1).
    destruct (handshake_step_inv upgrade_err sock addr first w pc w1 Hinv1)
      as (pc2 & w2 & Hrun2 & Hinv2).
    destruct (IH pc2 w2 Hfresh Hsock Hinv2) as (pc3 & w3 & Hrun3 & Hinv3).
    exists pc3, w3. split; [|done].
    cbn [handshake_among]. unfold bind. by rewrite Hrun1, Hrun2.
Qed.

(** C6 (as amended). For a new connection (its socket held by no
    registered connection, its object at an address not in the
    registry):
    - [monitor] up to its read loop is its four steps run in a row;
    - whatever data batches and labels the sampling goroutine sends
      between those steps, at every point the writes to the new socket
      are as [greeting] says: nothing before the signon write; once that
      write has succeeded, exactly the signon message and then exactly
      one enabled snapshot; further writes (data batches and labels
      only) come after those two, and only in the read loop; the
      connection is in the registry only in the read loop, so it is
      appended only after both writes have returned, whether or not the
      snapshot write failed; and when the signon write fails, [monitor]
      has returned with that one write and without registering;
    - run on its own with the token and a successful signon write, it
      reaches the read loop and registers the connection. *)
Theorem handshake_greets_before_registering sock addr w :
  addr ∉ connections w ->
  sock ∉ registry_sockets w ->
  (forall upgrade_err first,
     monitor_handshake upgrade_err sock addr first w
     = bind (handshake_among upgrade_err sock addr first [[]; []; []; []]
               PcStart)
            (fun pc => ret (in_loop pc)) w)
  /\ (forall upgrade_err first sched,
        exists pc w' news,
          handshake_among upgrade_err sock addr first sched PcStart w
            = Ret pc w'
          /\ wire w' = wire w ++ news
          /\ greeting w sock pc (filter (fun d => to d = sock) news)
          /\ connections w'
             = connections w ++ (if in_loop pc then [addr] else []))
  /\ (wfail w sock (length (wire w)) = false ->
      exists w' d1 d2,
        monitor_handshake false sock addr (Some token) w = Ret true w'
        /\ connections w' = connections w ++ [addr]
        /\ wire w' = wire w ++ [d1; d2]
        /\ signon_write w sock d1 /\ failed d1 = false
        /\ enabled_write w sock d2).
Proof.
  intros Hfresh Hsock. split; [|split].
  - intros upgrade_err first. apply handshake_steps_are_monitor.
  - intros upgrade_err first sched.
    destruct (handshake_among_inv upgrade_err sock addr first w sched
                PcStart w Hfresh Hsock)
      as (pc & w' & Hrun & (news & Hw & Hg) & Hc & _).
    { split; [exists []; by rewrite app_nil_r|].
      split; [by rewrite app_nil_r|]. done. }
    by exists pc, w', news.
  - intros Hf.
    exists (set_connections (connections w ++ [addr]) (greeted sock addr w)).
    exists (mkWrite sock (signon w (clock_reads w)) false).
    exists (mkWrite sock (snapshot w (S (clock_reads w)))
                    (wfail w sock (S (length (wire w))))).
    split; [by apply monitor_handshake_registered|].
    split; [reflexivity|]. split.
    { unfold greeted, delivered, authenticated.
      destruct (debug w); simpl; by rewrite <- (assoc_L (++)). }
    unfold signon_write, enabled_write, signon, snapshot. simpl.
    repeat split; by eexists.
Qed.

Lemma handshake_greets_before_registering_witness :
  let w := sample_world false [5] [] [idle_sensor "a" [mkEvent "x" true]] in
  (forall upgrade_err first,
     monitor_handshake upgrade_err 7 7 first w
     = bind (handshake_among upgrade_err 7 7 first [[]; []; []; []] PcStart)
            (fun pc => ret (in_loop pc)) w)
  /\ (forall upgrade_err first sched,
        exists pc w' news,
          handshake_among upgrade_err 7 7 first sched PcStart w = Ret pc w'
          /\ wire w' = wire w ++ news
          /\ greeting w 7 pc (filter (fun d => to d = 7) news)
          /\ connections w'
             = connections w ++ (if in_loop pc then [7] else []))
  /\ (wfail w 7 (length (wire w)) = false ->
      exists w' d1 d2,
        monitor_handshake false 7 7 (Some token) w = Ret true w'
        /\ connections w' = connections w ++ [7]
        /\ wire w' = wire w ++ [d1; d2]
        /\ signon_write w 7 d1 /\ failed d1 = false
        /\ enabled_write w 7 d2).
Proof.
  intros w. apply (handshake_greets_before_registering 7 7 w).
  - apply (bool_decide_unpack _). vm_compute. reflexivity.
  - apply (bool_decide_unpack _). vm_compute. reflexivity.
Defined.

(** A run with the sampling goroutine sending a batch before every step:
    the batches sent before the append reach socket 5 only; socket 7
    receives the signon message, the snapshot, and then the batch sent
    once it is registered. *)
Example handshake_among_broadcasts :
  let w := sample_world false [5] [] [idle_sensor "a" [mkEvent "x" true]] in
  let data n := [SendData [[n]]] in
  let r := handshake_among false 7 7 (Some token)
             [data 1; data 2; data 3; data 4; data 5]%Z PcStart w in
  value_of r = Some PcLoop
  /\ connections (world_of r) = [5; 7]
  /\ (fun d => (to d, payload d)) <$> wire (world_of r)
     = [(5, DataMessage [[1%Z]]);
        (5, DataMessage [[2%Z]]);
        (7, SignonMessage 0 {["a" := ["x"]]} {["a" := 1%N]});
        (5, DataMessage [[3%Z]]);
        (7, ChangeMessage "enabled" 1000 100 false {["a" := ["x"]]});
        (5, DataMessage [[4%Z]]);
        (5, DataMessage [[5%Z]]);
        (7, DataMessage [[5%Z]])].
Proof. vm_compute. done. Qed.

(** * A panic of the message loop under the HTTP server *)

(** C9 (as amended). An update message whose State is neither on nor off
    makes [toggle] panic with "unexpected state" before anything but the
    debug print has happened. Under the HTTP server the panic ends this
    connection's handler only: nothing is written, no event changes, and
    the registry, which still holds the connection, is as it was, so the
    process goes on. A message with an unknown Op, in contrast, is printed
    and the loop goes on. *)
Theorem bad_state_panic_ends_handler_only addr msg w :
  (field "Op" msg = "update" ->
   field "State" msg <> "on" -> field "State" msg <> "off" ->
   monitor_step addr (Some msg) w
     = Panic "unexpected state" (recv_logged msg w)
   /\ served (monitor_step addr (Some msg)) w = Ret None (recv_logged msg w)
   /\ connections (recv_logged msg w) = connections w
   /\ heap (recv_logged msg w) = heap w
   /\ wire (recv_logged msg w) = wire w
   /\ present (recv_logged msg w) = present w)
  /\ (known_op (field "Op" msg) = false ->
      monitor_step addr (Some msg) w
      = Ret true (set_log (log (recv_logged msg w) ++ [LogUnknownMessage msg])
                          (recv_logged msg w))).
Proof.
  split.
  - intros Hop Hon Hoff.
    assert (monitor_step addr (Some msg) w
            = Panic "unexpected state" (recv_logged msg w)) as Hpanic.
    { rewrite (monitor_step_update _ _ _ Hop). unfold bind.
      by rewrite toggle_unexpected_state. }
    split; [exact Hpanic|]. split; [unfold served; by rewrite Hpanic|].
    unfold recv_logged. by destruct (debug w).
  - apply monitor_step_unknown.
Qed.

Lemma bad_state_panic_ends_handler_only_witness :
  let w := sample_world true [5; 6] [] [idle_sensor "a" [mkEvent "x" true]] in
  let msg := control "update" "State" "maybe" in
  served (monitor_step 5 (Some msg)) w = Ret None (recv_logged msg w)
  /\ connections (recv_logged msg w) = [5; 6]
  /\ monitor_step 5 (Some (control "reset" "Value" "1")) w
     = Ret true
         (set_log (log (recv_logged (control "reset" "Value" "1") w)
                     ++ [LogUnknownMessage (control "reset" "Value" "1")])
                  (recv_logged (control "reset" "Value" "1") w)).
Proof.
  intros w msg.
  destruct (bad_state_panic_ends_handler_only 5 msg w) as [Hbad _].
  destruct (bad_state_panic_ends_handler_only 5
              (control "reset" "Value" "1") w) as [_ Hunknown].
  destruct Hbad as (_ & Hserved & Hconn & _);
    [reflexivity | discriminate | discriminate |].
  split; [exact Hserved|]. split; [rewrite Hconn; reflexivity|].
  apply Hunknown. reflexivity.
Defined.

(** C9 (counterexample). Connections 5 and 6 are registered and 5 sends
    an update whose State is maybe. The handler of 5 ends by a panic, and
    the process goes on: both connections are still registered, the
    handler of 6 serves its next message, and the sampling loop's next
    two iterations run and send a batch to both sockets. *)
Lemma bad_state_panic_is_not_process_fatal :
  let w := sample_world false [5; 6] [] [idle_sensor "a" [mkEvent "x" true]] in
  let msg := control "update" "State" "maybe" in
  let r := served (monitor_step 5 (Some msg)) w in
  let idle := mkFifo false 0 "" in
  let r2 := live_ticks [idle; idle] live_init (world_of r) in
  panic_of (monitor_step 5 (Some msg) w) = Some "unexpected state"
  /\ value_of r = Some None
  /\ connections (world_of r) = [5; 6]
  /\ value_of (served (monitor_step 6 (Some (control "stop" "Value" "")))
                      (world_of r)) = Some (Some true)
  /\ value_of r2 = Some (mkLive 1000 [])
  /\ wire (world_of r2)
     = [mkWrite 5 (DataMessage [[0; 0]%Z]) false;
        mkWrite 6 (DataMessage [[0; 0]%Z]) false].
Proof. vm_compute. done. Qed.
